(** * add-to-steam.py: the shortcut record builder and the container editor

    A shallow embedding of the core of [add-to-steam.py]: the
    application identifier (line 263), [make_entry] (lines 239-260),
    [get_latest_index] (lines 225-236) and the splice of the new entry
    into [shortcuts.vdf] (lines 217-274).

    Python values are modelled as follows.
    - [bytes] is [list byte] (the 256-constructor type of the Standard
      Library), so that every element is an octet by typing.
    - [str] is a list of code points, each an [N]; a Python string may
      hold any code point up to 0x10FFFF, lone surrogates included.
    - [int] is [Z].
    - an operation that can raise returns [option] or [result]. *)

From Stdlib Require Import Strings.Byte Strings.Ascii Strings.String.
From Stdlib Require Import List ZArith NArith Lia Bool Arith.
Import ListNotations.

Local Open Scope Z_scope.

(** [lia] extended with the equations of Euclidean division. *)
Ltac dlia := zify; Z.to_euclidean_division_equations; lia.

(* ================================================================== *)
(** ** Bytes and text *)

Definition bytes := list byte.

(** A Python [str]: a sequence of code points. *)
Definition codepoint := N.
Definition str := list codepoint.

Definition byte_of_N (n : N) : byte :=
  match Byte.of_N (n mod 256) with
  | Some b => b
  | None => x00
  end.

Definition Z_of_byte (b : byte) : Z := Z.of_N (Byte.to_N b).
Definition byte_of_Z (z : Z) : byte := byte_of_N (Z.to_N (z mod 256)).

(** A bytes literal such as [b'appid']. *)
Definition blit (s : string) : bytes := list_byte_of_string s.

(** A str literal whose characters are all below U+0100. *)
Definition slit (s : string) : str :=
  map (fun a => N_of_ascii a) (list_ascii_of_string s).

(** Surrogate code points, which no UTF-8 sequence encodes. *)
Definition is_surrogate (c : codepoint) : bool :=
  ((0xD800 <=? c) && (c <=? 0xDFFF))%N.

(** [ch.encode("utf-8")] for one code point; [None] stands for
    [UnicodeEncodeError]. *)
Definition encode_cp (c : codepoint) : option bytes :=
  if (c <? 0x80)%N then Some [byte_of_N c]
  else if (c <? 0x800)%N then
    Some [byte_of_N (N.lor 0xC0 (N.shiftr c 6));
          byte_of_N (N.lor 0x80 (N.land c 0x3F))]
  else if (c <? 0x10000)%N then
    if is_surrogate c then None
    else Some [byte_of_N (N.lor 0xE0 (N.shiftr c 12));
               byte_of_N (N.lor 0x80 (N.land (N.shiftr c 6) 0x3F));
               byte_of_N (N.lor 0x80 (N.land c 0x3F))]
  else if (c <=? 0x10FFFF)%N then
    Some [byte_of_N (N.lor 0xF0 (N.shiftr c 18));
          byte_of_N (N.lor 0x80 (N.land (N.shiftr c 12) 0x3F));
          byte_of_N (N.lor 0x80 (N.land (N.shiftr c 6) 0x3F));
          byte_of_N (N.lor 0x80 (N.land c 0x3F))]
  else None.

(** [s.encode("utf-8")], also [s.encode()]: strict error handling. *)
Fixpoint encode (s : str) : option bytes :=
  match s with
  | [] => Some []
  | c :: s' =>
      match encode_cp c, encode s' with
      | Some a, Some b => Some (a ++ b)
      | _, _ => None
      end
  end.

(** Text that UTF-8 can encode: Unicode scalar values only. *)
Definition scalar_value (c : codepoint) : Prop :=
  (c <= 0x10FFFF)%N /\ is_surrogate c = false.

Definition well_formed (s : str) : Prop := Forall scalar_value s.

(* ================================================================== *)
(** ** zlib.crc32

    [zlib.crc32] is library code.  It is modelled by the bit-serial
    definition of the standard CRC-32 (reflected polynomial 0xEDB88320,
    initial value and final XOR 0xFFFFFFFF). *)

Definition crc_poly : Z := 0xEDB88320.

Definition crc_shift (c : Z) : Z :=
  if Z.testbit c 0 then Z.lxor (Z.shiftr c 1) crc_poly else Z.shiftr c 1.

Definition crc_byte (c : Z) (b : byte) : Z :=
  let c0 := Z.lxor c (Z_of_byte b) in
  crc_shift (crc_shift (crc_shift (crc_shift
    (crc_shift (crc_shift (crc_shift (crc_shift c0))))))).

Definition crc32 (data : bytes) : Z :=
  Z.lxor (fold_left crc_byte data 0xFFFFFFFF) 0xFFFFFFFF.

(* ================================================================== *)
(** ** The application identifier (line 263)

    [appid = 0x80000000 | zlib.crc32((APPNAME + EXE).encode("utf-8")) & 0xFFFFFFFF]

    In Python [&] binds tighter than [|]. *)

Definition appid_of_bytes (payload : bytes) : Z :=
  Z.lor 0x80000000 (Z.land (crc32 payload) 0xFFFFFFFF).

Definition computeAppId (displayName executablePath : str) : option Z :=
  match encode (displayName ++ executablePath) with
  | Some payload => Some (appid_of_bytes payload)
  | None => None
  end.


(* ================================================================== *)
(** ** Errors

    The script has no exception classes of its own: it prints a message
    and calls [exit(1)], or lets a library exception escape.  The
    conditions are named after what triggers them. *)

Inductive condition : Type :=
| LauncherNotFound      (* detect_launcher: exit(1), line 191 *)
| NoAccountFound        (* no numeric user directory: exit(1), line 212 *)
| MalformedContainer    (* "File structure not recognized": exit(1), line 274 *)
| UnicodeEncodeError    (* str.encode on a surrogate *)
| ValueError            (* int() on a non-number *)
| StructError.          (* struct.pack on an out-of-range integer *)

Inductive result (A : Type) : Type :=
| Ok (a : A)
| Err (c : condition).
Arguments Ok {A} a.
Arguments Err {A} c.

Definition bind {A B : Type} (r : result A) (k : A -> result B) : result B :=
  match r with
  | Ok a => k a
  | Err c => Err c
  end.

Notation "x <- r ;; k" := (bind r (fun x => k))
  (at level 61, r at next level, right associativity).

Definition lift {A : Type} (c : condition) (o : option A) : result A :=
  match o with
  | Some a => Ok a
  | None => Err c
  end.

(* ================================================================== *)
(** ** str(int) and struct.pack('<I', _) *)

(** The decimal digits of [n], most significant first, prepended to
    [acc]; [fuel] bounds the number of digits. *)
Fixpoint digits_aux (fuel : nat) (n : N) (acc : str) : str :=
  match fuel with
  | O => acc
  | S fuel' =>
      let acc' := (48 + n mod 10)%N :: acc in
      if (n <? 10)%N then acc' else digits_aux fuel' (n / 10) acc'
  end.

Definition str_N (n : N) : str := digits_aux (S (N.to_nat (N.size n))) n [].

(** [str(i)] for a Python [int]. *)
Definition str_int (i : Z) : str :=
  if i <? 0 then 45%N :: str_N (Z.to_N (- i)) else str_N (Z.to_N i).

(** [struct.pack('<I', v)]: four bytes, least significant first;
    [None] stands for [struct.error]. *)
Definition pack_u32_le (v : Z) : option bytes :=
  if (0 <=? v) && (v <=? 0xFFFFFFFF) then
    Some [byte_of_Z (Z.land v 0xFF);
          byte_of_Z (Z.land (Z.shiftr v 8) 0xFF);
          byte_of_Z (Z.land (Z.shiftr v 16) 0xFF);
          byte_of_Z (Z.land (Z.shiftr v 24) 0xFF)]
  else None.

(* ================================================================== *)
(** ** make_entry (lines 239-260)

    [config_dir] is a module-level variable of the script; here it is
    the first argument. *)

Definition make_entry (config_dir : str) (index appid : Z)
    (appname exe startdir : str) : result bytes :=
  let x00 := [Byte.x00] in
  let x01 := [Byte.x01] in
  let x02 := [Byte.x02] in
  let x08 := [Byte.x08] in
  let b := [] in
  index_text <- lift UnicodeEncodeError (encode (str_int index)) ;;
  let b := b ++ (x00 ++ index_text ++ x00) in
  packed <- lift StructError (pack_u32_le appid) ;;
  let b := b ++ (x02 ++ blit "appid" ++ x00 ++ packed) in
  appname_bytes <- lift UnicodeEncodeError (encode appname) ;;
  let b := b ++ (x01 ++ blit "appname" ++ x00 ++ appname_bytes ++ x00) in
  exe_bytes <- lift UnicodeEncodeError (encode exe) ;;
  let b := b ++ (x01 ++ blit "exe" ++ x00 ++ exe_bytes ++ x00) in
  startdir_bytes <- lift UnicodeEncodeError (encode startdir) ;;
  let b := b ++ (x01 ++ blit "StartDir" ++ x00 ++ startdir_bytes ++ x00) in
  config_dir_bytes <- lift UnicodeEncodeError (encode config_dir) ;;
  appid_text <- lift UnicodeEncodeError (encode (str_int appid)) ;;
  let b := b ++ (x01 ++ blit "icon" ++ x00 ++ config_dir_bytes
                  ++ blit "/grid/" ++ appid_text ++ blit "_icon.ico" ++ x00) in
  let b := b ++ x08 in
  Ok b.

(* ================================================================== *)
(** ** get_latest_index (lines 225-236)

    [re.findall(rb'\x00(\d+)\x00', data)] is library code.  The model
    follows the regular-expression engine: at each position it tries to
    match a null byte, the longest run of ASCII digits (at least one),
    and a null byte; after a match the scan resumes at the end of the
    match, otherwise one byte further.  A shorter run of digits can
    never be followed by a null byte, so backtracking adds no match. *)

Definition is_null (b : byte) : bool := Byte.eqb b x00.

(** [\d] in a bytes pattern: the ASCII digits 0-9. *)
Definition is_digit (b : byte) : bool :=
  ((48 <=? Byte.to_N b) && (Byte.to_N b <=? 57))%N.

(** The longest prefix of digits, and what follows it. *)
Fixpoint span_digits (l : bytes) : bytes * bytes :=
  match l with
  | b :: l' =>
      if is_digit b then
        let (ds, rest) := span_digits l' in (b :: ds, rest)
      else ([], l)
  | [] => ([], [])
  end.

(** A match of the pattern at the head of [l]: the digits of group 1
    and the bytes after the match. *)
Definition match_here (l : bytes) : option (bytes * bytes) :=
  match l with
  | b :: l' =>
      if is_null b then
        match span_digits l' with
        | (d :: ds, r :: rest) =>
            if is_null r then Some (d :: ds, rest) else None
        | _ => None
        end
      else None
  | [] => None
  end.

(** The matches found from offset [pos] on, where [l] is the data from
    [pos]: start offset and group 1 of each. *)
Fixpoint scan (fuel : nat) (pos : nat) (l : bytes) : list (nat * bytes) :=
  match fuel with
  | O => []
  | S fuel' =>
      match match_here l with
      | Some (ds, rest) =>
          (pos, ds) :: scan fuel' (pos + (length ds + 2))%nat rest
      | None =>
          match l with
          | [] => []
          | _ :: l' => scan fuel' (S pos) l'
          end
      end
  end.

Definition finditer (data : bytes) : list (nat * bytes) :=
  scan (S (length data)) 0%nat data.

Definition findall (data : bytes) : list bytes := map snd (finditer data).

(** [int(b)] for a bytes object of decimal digits; [None] stands for
    [ValueError].  Only digit strings are modelled (the regular
    expression yields nothing else), and CPython's configurable limit
    on the number of digits is left out. *)
Definition int_of_bytes (b : bytes) : option Z :=
  match b with
  | [] => None
  | _ :: _ =>
      if forallb is_digit b then
        Some (fold_left (fun acc d => 10 * acc + (Z_of_byte d - 48)) b 0)
      else None
  end.

Definition get_latest_index (data : bytes) : option Z :=
  let matches := findall data in
  match matches with
  | _ :: _ => int_of_bytes (last matches [])
  | [] => Some (-1)
  end.

(** [index = get_latest_index(data) + 1] (line 236). *)
Definition nextIndex (data : bytes) : option Z :=
  option_map (fun latest => latest + 1) (get_latest_index data).

(* ================================================================== *)
(** ** The splice (lines 267-274) *)

Definition terminator : bytes := [x08; x08].

Definition bytes_eqb (a b : bytes) : bool :=
  if list_eq_dec Byte.byte_eq_dec a b then true else false.

(** [data.endswith(suffix)]. *)
Definition endswith (data suffix : bytes) : bool :=
  (length suffix <=? length data)%nat
  && bytes_eqb (skipn (length data - length suffix) data) suffix.

(** [data[:-2]]. *)
Definition drop_last2 (data : bytes) : bytes :=
  firstn (length data - 2) data.

Definition insertEntry (data entry : bytes) : result bytes :=
  if endswith data terminator then
    Ok (drop_last2 data ++ entry ++ terminator)
  else
    Err MalformedContainer.

(* ================================================================== *)
(** ** The run of the script up to the write (lines 193-274)

    What the script probes on the machine is given by [Env]: the
    launcher found by [detect_launcher] and the [config] directory of
    the first numeric user directory.  [Disk] is [shortcuts.vdf]:
    its contents, if the file exists, and the log of the writes made
    to it. *)

Definition APPNAME : str := slit "Minecraft Splitscreen".

Record Launcher : Type := {
  EXE : str;
  STARTDIR : str;
  LAUNCHER_NAME : str
}.

Record Env : Type := {
  detect_launcher : option Launcher;
  config_dir : option str
}.

Record Disk : Type := {
  shortcuts_file : option bytes;
  writes : list bytes
}.

(** [open(shortcuts_file, "wb").write(content)]. *)
Definition write_file (content : bytes) (d : Disk) : Disk :=
  {| shortcuts_file := Some content; writes := writes d ++ [content] |}.

(** The empty VDF structure of line 219. *)
Definition empty_container : bytes :=
  [x00] ++ blit "shortcuts" ++ [x00; x08; x08].

(** Lines 236 and 263-268 on the bytes read: the new index, the
    identifier and the new contents. *)
Definition add_shortcut (cfg : str) (l : Launcher) (data : bytes)
  : result (Z * Z * bytes) :=
  index <- lift ValueError (nextIndex data) ;;
  appid <- lift UnicodeEncodeError (computeAppId APPNAME (EXE l)) ;;
  entry <- make_entry cfg index appid APPNAME (EXE l) (STARTDIR l) ;;
  new_data <- insertEntry data entry ;;
  Ok (index, appid, new_data).

(** The script from line 193 to line 274.  [Ok (index, appid)] means
    that it goes on to the artwork downloads; [Err c] that it stops:
    by [exit(1)] or by an uncaught exception.  Console output and
    failures of the file system itself are left out. *)
Definition main (env : Env) (disk : Disk) : Disk * result (Z * Z) :=
  match detect_launcher env with
  | None => (disk, Err LauncherNotFound)
  | Some l =>
      match config_dir env with
      | None => (disk, Err NoAccountFound)
      | Some cfg =>
          let (disk1, data) :=
            match shortcuts_file disk with
            | None => (write_file empty_container disk, empty_container)
            | Some data => (disk, data)
            end in
          match add_shortcut cfg l data with
          | Ok (index, appid, new_data) =>
              (write_file new_data disk1, Ok (index, appid))
          | Err c => (disk1, Err c)
          end
      end
  end.


(* ================================================================== *)
(** ** Specification vocabulary *)

(** The identifier as the specification words it: the CRC-32 masked to
    32 bits, then bit 31 set. *)
Definition appid_spec (payload : bytes) : Z :=
  Z.lor (Z.land (crc32 payload) 0xFFFFFFFF) 0x80000000.

(** [sub] occurs in [l] as a contiguous run. *)
Definition contains (sub l : bytes) : Prop :=
  exists pre post, l = pre ++ sub ++ post.

Definition ends_with (suffix l : bytes) : Prop :=
  exists pre, l = pre ++ suffix.

(** An occurrence of "null byte, one or more decimal digits, null
    byte" at offset [i] of [data], with digits [ds]. *)
Definition occurrence (data : bytes) (i : nat) (ds : bytes) : Prop :=
  exists pre post,
    data = pre ++ [x00] ++ ds ++ [x00] ++ post
    /\ length pre = i
    /\ ds <> []
    /\ forallb is_digit ds = true.

(** The value of a run of decimal digits. *)
Fixpoint digits_value (acc : Z) (ds : bytes) : Z :=
  match ds with
  | [] => acc
  | d :: ds' => digits_value (10 * acc + (Z_of_byte d - 48)) ds'
  end.

(** The code points of the decimal digits. *)
Definition digit_cp (c : codepoint) : Prop := (48 <= c <= 57)%N.

(** The decimal text of an integer, as ASCII bytes. *)
Definition decimal_text (i : Z) : bytes := map byte_of_N (str_int i).

(** An unsigned 32-bit integer in little-endian order. *)
Definition u32_le (v : Z) : bytes :=
  [byte_of_Z (v mod 256);
   byte_of_Z (v / 256 mod 256);
   byte_of_Z (v / 65536 mod 256);
   byte_of_Z (v / 16777216 mod 256)].

(** A text field of the record: tag 0x01, name, null, value, null. *)
Definition text_field (name : string) (value : bytes) : bytes :=
  [x01] ++ blit name ++ [x00] ++ value ++ [x00].

(** The layout of a record. *)
Definition record_layout (index appid : Z)
    (appname exe startdir icon : bytes) : bytes :=
  [x00] ++ decimal_text index ++ [x00]
  ++ ([x02] ++ blit "appid" ++ [x00] ++ u32_le appid)
  ++ text_field "appname" appname
  ++ text_field "exe" exe
  ++ text_field "StartDir" startdir
  ++ text_field "icon" icon
  ++ [x08].

(** The matches of a left-to-right scan for non-overlapping
    occurrences, started at offset [from]: the first match is the
    leftmost occurrence that starts at [from] or later, and the scan
    goes on from the end of that match. *)
Fixpoint leftmost_nonoverlapping (data : bytes) (from : nat)
    (ms : list (nat * bytes)) : Prop :=
  match ms with
  | [] => forall k ds, (from <= k)%nat -> ~ occurrence data k ds
  | (i, ds) :: ms' =>
      (from <= i)%nat
      /\ occurrence data i ds
      /\ (forall k ds', (from <= k < i)%nat -> ~ occurrence data k ds')
      /\ leftmost_nonoverlapping data (i + (length ds + 2)) ms'
  end.


(** ** Sample containers *)


(** The record of the Minecraft shortcut for /x/run.sh at [index]. *)
Definition sample_record (index : Z) : bytes :=
  record_layout index 3936777386 (blit "Minecraft Splitscreen")
    (blit "/x/run.sh") (blit "/x") (blit "/cfg/grid/3936777386_icon.ico").

(** A container holding one record per index of [indices], in that
    order. *)
Definition container_of (indices : list Z) : bytes :=
  [x00] ++ blit "shortcuts" ++ [x00]
  ++ concat (map sample_record indices)
  ++ [x08; x08].

(* ================================================================== *)
(** ** Paths

    [str.startswith], [str.endswith] and [os.path.join] (the POSIX
    version: a component that starts with a slash replaces what came
    before; otherwise it is appended, after a slash unless the path so
    far is empty or ends with one). *)

Definition str_eqb (a b : str) : bool :=
  if list_eq_dec N.eq_dec a b then true else false.

Definition str_startswith (s prefix : str) : bool :=
  str_eqb (firstn (length prefix) s) prefix.

Definition str_endswith (s suffix : str) : bool :=
  (length suffix <=? length s)%nat
  && str_eqb (skipn (length s - length suffix) s) suffix.

Definition join2 (path b : str) : str :=
  if str_startswith b (slit "/") then b
  else if match path with [] => true | _ :: _ => false end
          || str_endswith path (slit "/")
       then path ++ b
       else path ++ slit "/" ++ b.

Definition path_join (a : str) (p : list str) : str := fold_left join2 p a.

(* ================================================================== *)
(** ** Probing the machine (lines 20-214)

    [Machine] is what the script reads from its surroundings: the home
    directory, the directory of the script file, [os.path.exists],
    [os.access(_, os.X_OK)], the expanded [~/.steam/steam/userdata]
    and its listing.  The debug log of [detect_launcher] is written
    inside [try: ... except: pass] and has no effect on the result; it
    is left out. *)

Module Probe.

Record Machine : Type := {
  HOME : str;
  script_dir : str;              (* os.path.dirname(os.path.abspath(__file__)) *)
  path_exists : str -> bool;     (* os.path.exists *)
  access_X_OK : str -> bool;     (* os.access(_, os.X_OK) *)
  userdata : str;                (* os.path.expanduser("~/.steam/steam/userdata") *)
  listdir : list str             (* os.listdir(userdata) *)
}.

(** [detect_launcher()] (lines 24-191); [None] is [exit(1)]. *)
Definition detect_launcher (m : Machine) : option Launcher :=
  let pollymc_path :=
    HOME m ++ slit "/.local/share/PollyMC/PollyMC-Linux-x86_64.AppImage" in
  let pollymc_script :=
    HOME m ++ slit "/.local/share/PollyMC/minecraftSplitscreen.sh" in
  let prism_path :=
    HOME m ++ slit "/.local/share/PrismLauncher/PrismLauncher.AppImage" in
  let prism_script :=
    HOME m ++ slit "/.local/share/PrismLauncher/minecraftSplitscreen.sh" in
  if path_exists m pollymc_path && access_X_OK m pollymc_path then
    if path_exists m pollymc_script then
      Some {| EXE := pollymc_script;
              STARTDIR := HOME m ++ slit "/.local/share/PollyMC";
              LAUNCHER_NAME := slit "PollyMC" |}
    else
      Some {| EXE := HOME m
                     ++ slit "/.local/share/PrismLauncher/minecraftSplitscreen.sh";
              STARTDIR := HOME m ++ slit "/.local/share/PollyMC";
              LAUNCHER_NAME := slit "PollyMC" |}
  else if path_exists m prism_path && access_X_OK m prism_path then
    if path_exists m prism_script then
      Some {| EXE := prism_script;
              STARTDIR := HOME m ++ slit "/.local/share/PrismLauncher";
              LAUNCHER_NAME := slit "PrismLauncher" |}
    else
      let current_dir_script :=
        path_join (script_dir m) [slit "minecraftSplitscreen.sh"] in
      if path_exists m current_dir_script then
        Some {| EXE := current_dir_script;
                STARTDIR := HOME m ++ slit "/.local/share/PrismLauncher";
                LAUNCHER_NAME := slit "PrismLauncher" |}
      else None
  else None.

Section Account.

(** The code points that [str.isdigit] accepts (a table of the
    Unicode database). *)
Variable unicode_digit : codepoint -> bool.

(** [d.isdigit()]: at least one character, and all of them digits. *)
Definition isdigit (d : str) : bool :=
  match d with
  | [] => false
  | _ :: _ => forallb unicode_digit d
  end.

(** [next((d for d in os.listdir(userdata) if d.isdigit()), None)]
    (line 209). *)
Definition user_id (m : Machine) : option str := find isdigit (listdir m).

(** [config_dir] (lines 210-213); [None] is [exit(1)]. *)
Definition config_dir (m : Machine) : option str :=
  match user_id m with
  | None => None
  | Some [] => None
  | Some (c :: u) => Some (path_join (userdata m) [c :: u; slit "config"])
  end.

(** [shortcuts_file] (line 214) and [grid_dir] (line 277). *)
Definition shortcuts_file (m : Machine) : option str :=
  option_map (fun cfg => path_join cfg [slit "shortcuts.vdf"]) (config_dir m).

Definition grid_dir (m : Machine) : option str :=
  match user_id m with
  | None => None
  | Some [] => None
  | Some (c :: u) =>
      Some (path_join (userdata m) [c :: u; slit "config"; slit "grid"])
  end.

End Account.

End Probe.

(** The probes as the run of the script takes them. *)
Definition env_of (unicode_digit : codepoint -> bool) (m : Probe.Machine)
  : Env :=
  {| detect_launcher := Probe.detect_launcher m;
     config_dir := Probe.config_dir unicode_digit m |}.

(* ================================================================== *)
(** ** The artwork downloads (lines 198-205 and 276-293)

    [Files] maps a path to the contents of the file at that path.  A
    download has three outcomes: [urlopen] raises; [urlopen] succeeds,
    the target is opened for writing, and [resp.read()] raises; or
    the body is read and written.  [os.makedirs] and console output
    are left out. *)

Definition STEAMGRIDDB_IMAGES : list (str * str) :=
  [ (slit "p",
     slit "https://cdn2.steamgriddb.com/grid/a73027901f88055aaa0fd1a9e25d36c7.png");
    (slit "",
     slit "https://cdn2.steamgriddb.com/grid/e353b610e9ce20f963b4cca5da565605.jpg");
    (slit "_hero",
     slit "https://cdn2.steamgriddb.com/hero/ecd812da02543c0269cfc2c56ab3c3c0.png");
    (slit "_logo",
     slit "https://cdn2.steamgriddb.com/logo/90915208c601cc8c86ad01250ee90c12.png");
    (slit "_icon",
     slit "https://cdn2.steamgriddb.com/icon/add7a048049671970976f3e18f21ade3.ico") ].

Definition Files := str -> option bytes.

Definition write_path (path : str) (content : bytes) (files : Files) : Files :=
  fun q => if str_eqb q path then Some content else files q.

Inductive fetched : Type :=
| Unreachable            (* urlopen raises: the target is not opened *)
| Truncated              (* resp.read() raises: the target is left empty *)
| Body (content : bytes).

Inductive report : Type :=
| Skipped (suffix : str)
| Saved (suffix : str)
| Failed (suffix : str).

(** The target of one image (line 282). *)
Definition artwork_path (grid_dir : str) (appid : Z) (image : str * str)
  : str :=
  let (suffix, url) := image in
  path_join grid_dir
    [ if negb (str_endswith url (slit ".ico"))
      then str_int appid ++ suffix ++ slit ".png"
      else str_int appid ++ suffix ++ slit ".ico" ].

(** One turn of the loop (lines 280-293). *)
Definition download_one (net : str -> fetched) (grid_dir : str) (appid : Z)
    (state : Files * list report) (image : str * str)
  : Files * list report :=
  let (files, log) := state in
  let path := artwork_path grid_dir appid image in
  match files path with
  | Some _ => (files, log ++ [Skipped (fst image)])
  | None =>
      match net (snd image) with
      | Unreachable => (files, log ++ [Failed (fst image)])
      | Truncated => (write_path path [] files, log ++ [Failed (fst image)])
      | Body content =>
          (write_path path content files, log ++ [Saved (fst image)])
      end
  end.

Definition download_artwork (net : str -> fetched) (grid_dir : str)
    (appid : Z) (files : Files) : Files * list report :=
  fold_left (download_one net grid_dir appid) STEAMGRIDDB_IMAGES (files, []).

(** ** More specification vocabulary *)

(** What follows the index marker in a record. *)
Definition record_body (appid : Z) (appname exe startdir icon : bytes)
  : bytes :=
  ([x02] ++ blit "appid" ++ [x00] ++ u32_le appid)
  ++ text_field "appname" appname
  ++ text_field "exe" exe
  ++ text_field "StartDir" startdir
  ++ text_field "icon" icon
  ++ [x08].

(** The last byte of [l], if any, is not a decimal digit: no match of
    the index pattern that starts in [l] can run past its end. *)
Definition closed_on_right (l : bytes) : Prop :=
  forall l' b, l = l' ++ [b] -> is_digit b = false.

(** ** Vocabulary for the probes, the paths and the downloads *)

Definition head_not_digit (l : bytes) : Prop :=
  match l with
  | [] => True
  | b :: _ => is_digit b = false
  end.

Definition pollymc_found (m : Probe.Machine) : bool :=
  let p := Probe.HOME m
           ++ slit "/.local/share/PollyMC/PollyMC-Linux-x86_64.AppImage" in
  Probe.path_exists m p && Probe.access_X_OK m p.

Definition prism_found (m : Probe.Machine) : bool :=
  let p := Probe.HOME m
           ++ slit "/.local/share/PrismLauncher/PrismLauncher.AppImage" in
  Probe.path_exists m p && Probe.access_X_OK m p.

Definition pollymc_script (m : Probe.Machine) : str :=
  Probe.HOME m ++ slit "/.local/share/PollyMC/minecraftSplitscreen.sh".

Definition prism_script (m : Probe.Machine) : str :=
  Probe.HOME m ++ slit "/.local/share/PrismLauncher/minecraftSplitscreen.sh".

Definition current_dir_script (m : Probe.Machine) : str :=
  path_join (Probe.script_dir m) [slit "minecraftSplitscreen.sh"].

Definition sample_machine : Probe.Machine :=
  {| Probe.HOME := slit "/home/deck";
     Probe.script_dir := slit "/home/deck/install";
     Probe.path_exists := fun p =>
       str_eqb p (slit "/home/deck/.local/share/PollyMC/PollyMC-Linux-x86_64.AppImage")
       || str_eqb p (slit "/home/deck/.local/share/PrismLauncher/PrismLauncher.AppImage")
       || str_eqb p (slit "/home/deck/.local/share/PrismLauncher/minecraftSplitscreen.sh");
     Probe.access_X_OK := fun _ => true;
     Probe.userdata := slit "/home/deck/.steam/steam/userdata";
     Probe.listdir := [slit "anonymous"; slit "0"; slit "12345"; slit "ac"] |}.

Definition bare_pollymc_machine : Probe.Machine :=
  {| Probe.HOME := slit "/home/deck";
     Probe.script_dir := slit "/home/deck/install";
     Probe.path_exists := fun p =>
       str_eqb p (slit "/home/deck/.local/share/PollyMC/PollyMC-Linux-x86_64.AppImage");
     Probe.access_X_OK := fun _ => true;
     Probe.userdata := slit "/home/deck/.steam/steam/userdata";
     Probe.listdir := [] |}.

(** A path that is not empty and does not end with a slash. *)
Definition open_path (p : str) : Prop :=
  p <> [] /\ forall p', p <> p' ++ [47%N].

Definition ascii_digit (c : codepoint) : bool :=
  ((48 <=? c) && (c <=? 57))%N.

Definition dir_prefix (path : str) : str :=
  if match path with [] => true | _ :: _ => false end
     || str_endswith path (slit "/")
  then path else path ++ slit "/".

Definition extension (url : str) : str :=
  if negb (str_endswith url (slit ".ico")) then slit ".png" else slit ".ico".

Definition report_suffix (r : report) : str :=
  match r with
  | Skipped s => s
  | Saved s => s
  | Failed s => s
  end.

Definition no_files : Files := fun _ => None.

(** What the download loop leaves for one image, given the files
    before it. *)
Definition outcome (net : str -> fetched) (grid : str) (appid : Z)
    (files files' : Files) (log' : list report) (image : str * str) : Prop :=
  let target := artwork_path grid appid image in
  match files target with
  | Some content =>
      files' target = Some content /\ In (Skipped (fst image)) log'
  | None =>
      match net (snd image) with
      | Unreachable => files' target = None /\ In (Failed (fst image)) log'
      | Truncated => files' target = Some [] /\ In (Failed (fst image)) log'
      | Body content =>
          files' target = Some content /\ In (Saved (fst image)) log'
      end
  end.

(* ================================================================== *)
(** * Properties *)

(** ** Checks of the library models against known values *)

Example crc32_check_value : crc32 (blit "123456789") = 0xCBF43926.
Proof. vm_compute. reflexivity. Qed.

Example crc32_empty : crc32 [] = 0.
Proof. reflexivity. Qed.

Example encode_sample :
  encode [0xE9; 0x20AC; 0x1F680]%N
  = Some (map byte_of_Z [0xC3; 0xA9; 0xE2; 0x82; 0xAC; 0xF0; 0x9F; 0x9A; 0x80]).
Proof. vm_compute. reflexivity. Qed.

Example finditer_sample :
  finditer (map byte_of_Z [0; 48; 55; 0; 8; 0; 53; 0; 8; 0; 50; 0; 1; 0; 0;
                           57; 57; 0; 57; 0; 0; 49; 50; 0])
  = [(0, blit "07"); (5, blit "5"); (9, blit "2"); (14, blit "99");
     (20, blit "12")]%nat.
Proof. vm_compute. reflexivity. Qed.

Example str_int_samples :
  map str_int [0; 7; 10; 1234567890; -120]
  = map slit ["0"; "7"; "10"; "1234567890"; "-120"]%string.
Proof. vm_compute. reflexivity. Qed.

(** ** Bytes *)

Lemma to_N_byte_of_N (n : N) : Byte.to_N (byte_of_N n) = (n mod 256)%N.
Proof.
  unfold byte_of_N.
  destruct (Byte.of_N (n mod 256)) as [b|] eqn:E.
  - now apply Byte.to_of_N.
  - apply Byte.of_N_None_iff in E.
    pose proof (N.mod_upper_bound n 256). lia.
Qed.

Lemma Z_of_byte_range (b : byte) : 0 <= Z_of_byte b < 256.
Proof.
  unfold Z_of_byte. pose proof (Byte.to_N_bounded b). lia.
Qed.


(** ** UTF-8 encoding *)

Lemma encode_app (a b : str) :
  encode (a ++ b) =
  match encode a, encode b with
  | Some x, Some y => Some (x ++ y)
  | _, _ => None
  end.
Proof.
  induction a as [|c a IH]; simpl.
  - now destruct (encode b).
  - rewrite IH.
    destruct (encode_cp c), (encode a), (encode b); simpl;
      try reflexivity.
    now rewrite app_assoc.
Qed.

Lemma encode_cp_defined (c : codepoint) :
  encode_cp c <> None <-> scalar_value c.
Proof.
  unfold encode_cp, scalar_value, is_surrogate.
  destruct (c <? 0x80)%N eqn:E1;
    [ apply N.ltb_lt in E1 | apply N.ltb_ge in E1 ].
  { split; [intros _|discriminate].
    split; [lia|]. apply andb_false_iff. left. apply N.leb_gt. lia. }
  destruct (c <? 0x800)%N eqn:E2;
    [ apply N.ltb_lt in E2 | apply N.ltb_ge in E2 ].
  { split; [intros _|discriminate].
    split; [lia|]. apply andb_false_iff. left. apply N.leb_gt. lia. }
  destruct (c <? 0x10000)%N eqn:E3;
    [ apply N.ltb_lt in E3 | apply N.ltb_ge in E3 ].
  { destruct ((0xD800 <=? c) && (c <=? 0xDFFF))%N eqn:E4.
    - split; [congruence|]. intros [_ H]. discriminate.
    - split; [intros _|discriminate]. split; [lia|reflexivity]. }
  destruct (c <=? 0x10FFFF)%N eqn:E5;
    [ apply N.leb_le in E5 | apply N.leb_gt in E5 ].
  { split; [intros _|discriminate].
    split; [lia|]. apply andb_false_iff. right. apply N.leb_gt. lia. }
  split; [congruence|]. intros [H _]. lia.
Qed.

Lemma encode_defined (s : str) :
  encode s <> None <-> well_formed s.
Proof.
  unfold well_formed.
  induction s as [|c s IH]; simpl.
  - split; [constructor|discriminate].
  - pose proof (encode_cp_defined c) as Hc.
    destruct (encode_cp c) as [a|].
    + destruct (encode s) as [b|].
      * split; [|discriminate]. intros _. constructor.
        -- apply Hc. discriminate.
        -- apply IH. discriminate.
      * split; [congruence|]. intros H. inversion H; subst.
        apply IH; assumption.
    + split; [congruence|]. intros H. inversion H; subst.
      apply Hc; assumption.
Qed.

Lemma encode_total (s : str) :
  well_formed s -> exists payload, encode s = Some payload.
Proof.
  intros H. apply encode_defined in H.
  destruct (encode s) as [p|]; [now exists p|congruence].
Qed.

Lemma encode_ascii (s : str) :
  Forall (fun c => (c < 128)%N) s -> encode s = Some (map byte_of_N s).
Proof.
  induction 1 as [|c s Hc _ IH]; simpl; [reflexivity|].
  rewrite IH. unfold encode_cp.
  apply N.ltb_lt in Hc. now rewrite Hc.
Qed.

(** ** The identifier *)

Lemma appid_of_bytes_spec (payload : bytes) :
  appid_of_bytes payload = appid_spec payload.
Proof. apply Z.lor_comm. Qed.

Lemma masked_range (x : Z) : 0 <= Z.land x 0xFFFFFFFF < 2 ^ 32.
Proof.
  change 0xFFFFFFFF with (Z.ones 32).
  rewrite Z.land_ones by lia.
  apply Z.mod_pos_bound. lia.
Qed.

Lemma appid_of_bytes_bit31 (payload : bytes) :
  Z.testbit (appid_of_bytes payload) 31 = true.
Proof.
  unfold appid_of_bytes. rewrite Z.lor_spec. reflexivity.
Qed.

Lemma appid_of_bytes_range (payload : bytes) :
  0x80000000 <= appid_of_bytes payload <= 0xFFFFFFFF.
Proof.
  unfold appid_of_bytes.
  pose proof (masked_range (crc32 payload)) as Hm.
  set (m := Z.land (crc32 payload) 0xFFFFFFFF) in *.
  assert (Hnn : 0 <= Z.lor 0x80000000 m)
    by (apply Z.lor_nonneg; split; lia).
  split.
  - destruct (Z_lt_le_dec (Z.lor 0x80000000 m) 0x80000000) as [Hlt|]; [|assumption].
    assert (Z.testbit (Z.lor 0x80000000 m) 31 = false) as Hb.
    { apply Z.bits_above_log2; [assumption|].
      destruct (Z.eq_dec (Z.lor 0x80000000 m) 0) as [E|NE].
      - rewrite E. simpl. lia.
      - apply Z.log2_lt_pow2; lia. }
    rewrite Z.lor_spec in Hb. discriminate.
  - assert (Z.lor 0x80000000 m < 2 ^ 32); [|lia].
    destruct (Z.eq_dec (Z.lor 0x80000000 m) 0) as [E|NE]; [rewrite E; lia|].
    apply Z.log2_lt_pow2; [lia|].
    rewrite Z.log2_lor by lia.
    apply Z.max_lub_lt; [reflexivity|].
    destruct (Z.eq_dec m 0) as [->|]; [reflexivity|].
    apply Z.log2_lt_pow2; lia.
Qed.

Lemma computeAppId_bytes (dn ep : str) (v : Z) :
  computeAppId dn ep = Some v ->
  exists payload, encode (dn ++ ep) = Some payload /\ v = appid_of_bytes payload.
Proof.
  unfold computeAppId.
  destruct (encode (dn ++ ep)) as [p|]; [|discriminate].
  intros [= <-]. now exists p.
Qed.

Lemma computeAppId_undefined (dn ep : str) :
  ~ well_formed (dn ++ ep) -> computeAppId dn ep = None.
Proof.
  intros H. unfold computeAppId.
  destruct (encode (dn ++ ep)) as [p|] eqn:E; [|reflexivity].
  exfalso. apply H, encode_defined. congruence.
Qed.

(** ** struct.pack *)

Lemma pack_u32_le_in_range (v : Z) :
  0 <= v <= 0xFFFFFFFF -> pack_u32_le v = Some (u32_le v).
Proof.
  intros [H0 H1]. unfold pack_u32_le, u32_le.
  apply Z.leb_le in H0, H1. rewrite H0, H1. simpl andb. cbv iota.
  change 0xFF with (Z.ones 8).
  rewrite !Z.land_ones by lia.
  rewrite !Z.shiftr_div_pow2 by lia.
  reflexivity.
Qed.

Lemma pack_u32_le_out_of_range (v : Z) :
  v < 0 \/ 0xFFFFFFFF < v -> pack_u32_le v = None.
Proof.
  intros H. unfold pack_u32_le.
  destruct (0 <=? v) eqn:E0; [|reflexivity].
  destruct (v <=? 0xFFFFFFFF) eqn:E1; [|reflexivity].
  apply Z.leb_le in E0, E1. lia.
Qed.


Lemma make_entry_no_struct_error (cfg : str) (index appid : Z)
    (appname exe startdir : str) :
  0 <= appid <= 0xFFFFFFFF ->
  make_entry cfg index appid appname exe startdir <> Err StructError.
Proof.
  intros H. unfold make_entry.
  rewrite (pack_u32_le_in_range _ H).
  destruct (encode (str_int index)); simpl; [|discriminate].
  destruct (encode appname); simpl; [|discriminate].
  destruct (encode exe); simpl; [|discriminate].
  destruct (encode startdir); simpl; [|discriminate].
  destruct (encode cfg); simpl; [|discriminate].
  destruct (encode (str_int appid)); simpl; discriminate.
Qed.

(** ** Decimal text *)

Lemma digits_value_app (acc : Z) (a b : bytes) :
  digits_value acc (a ++ b) = digits_value (digits_value acc a) b.
Proof.
  revert acc. induction a as [|d a IH]; intros acc; simpl; [reflexivity|].
  apply IH.
Qed.

Lemma fold_left_digits_value (b : bytes) (acc : Z) :
  fold_left (fun acc d => 10 * acc + (Z_of_byte d - 48)) b acc
  = digits_value acc b.
Proof.
  revert acc. induction b as [|d b IH]; intros acc; simpl; [reflexivity|].
  apply IH.
Qed.

Lemma digit_cp_byte (c : codepoint) :
  digit_cp c ->
  is_digit (byte_of_N c) = true /\ Z_of_byte (byte_of_N c) = Z.of_N c.
Proof.
  intros [H0 H1]. unfold is_digit, Z_of_byte.
  rewrite to_N_byte_of_N, N.mod_small by lia.
  split; [|reflexivity].
  apply andb_true_iff. split; apply N.leb_le; lia.
Qed.

Lemma digits_aux_spec (fuel : nat) :
  forall (n : N) (acc : str),
    (n < 2 ^ N.of_nat (S fuel))%N ->
    exists ds,
      digits_aux (S fuel) n acc = ds ++ acc
      /\ ds <> []
      /\ Forall digit_cp ds
      /\ digits_value 0 (map byte_of_N ds) = Z.of_N n.
Proof.
  induction fuel as [|fuel IH]; intros n acc Hn; cbn [digits_aux];
        assert (Hd : digit_cp (48 + n mod 10)%N) by (unfold digit_cp; dlia);
    (destruct (n <? 10)%N eqn:E;
      [ apply N.ltb_lt in E | apply N.ltb_ge in E ]).
  - exists [(48 + n mod 10)%N].
    repeat split; try discriminate.
    + constructor; [assumption|constructor].
    + cbn [map digits_value]. destruct (digit_cp_byte _ Hd) as [_ ->].
      dlia.
  - change (2 ^ N.of_nat 1)%N with 2%N in Hn. lia.
  - exists [(48 + n mod 10)%N].
    repeat split; try discriminate.
    + constructor; [assumption|constructor].
    + cbn [map digits_value]. destruct (digit_cp_byte _ Hd) as [_ ->].
      dlia.
  - destruct (IH (n / 10)%N ((48 + n mod 10)%N :: acc))
      as (ds & E1 & _ & Hds & Hv).
    { rewrite Nat2N.inj_succ, N.pow_succ_r' in Hn.
      generalize dependent (2 ^ N.of_nat (S fuel))%N. intros; dlia. }
    exists (ds ++ [(48 + n mod 10)%N]).
    rewrite <- app_assoc. cbn [app].
    repeat split.
    + exact E1.
    + intros C. apply app_eq_nil in C. destruct C; discriminate.
    + apply Forall_app. split; [assumption|].
      constructor; [assumption|constructor].
    + unfold codepoint in *.
      rewrite map_app, digits_value_app, Hv. cbn [map digits_value].
      destruct (digit_cp_byte _ Hd) as [_ ->].
      dlia.
Qed.

Lemma str_N_spec (n : N) :
  str_N n <> []
  /\ Forall digit_cp (str_N n)
  /\ digits_value 0 (map byte_of_N (str_N n)) = Z.of_N n.
Proof.
  unfold str_N.
  destruct (digits_aux_spec (N.to_nat (N.size n)) n []) as (ds & E & H1 & H2 & H3).
  { rewrite Nat2N.inj_succ, N2Nat.id, N.pow_succ_r'.
    pose proof (N.size_gt n). lia. }
  rewrite E, app_nil_r. auto.
Qed.

Lemma str_int_ascii (i : Z) : Forall (fun c => (c < 128)%N) (str_int i).
Proof.
  assert (H : forall n, Forall (fun c => (c < 128)%N) (str_N n)).
  { intros n. destruct (str_N_spec n) as (_ & H & _).
    eapply Forall_impl; [|exact H]. unfold digit_cp. simpl. intros; lia. }
  unfold str_int. destruct (i <? 0); [constructor; [lia|]|]; apply H.
Qed.

Lemma encode_str_int (i : Z) : encode (str_int i) = Some (decimal_text i).
Proof. apply encode_ascii, str_int_ascii. Qed.

Lemma forallb_digits (ds : str) :
  Forall digit_cp ds -> forallb is_digit (map byte_of_N ds) = true.
Proof.
  induction 1 as [|c ds Hc _ IH]; simpl; [reflexivity|].
  destruct (digit_cp_byte c Hc) as [-> _]. exact IH.
Qed.

Lemma decimal_text_digits (i : Z) :
  0 <= i ->
  decimal_text i <> []
  /\ forallb is_digit (decimal_text i) = true
  /\ digits_value 0 (decimal_text i) = i.
Proof.
  intros H. unfold decimal_text, str_int.
  assert ((i <? 0) = false) as -> by (apply Z.ltb_ge; assumption).
  destruct (str_N_spec (Z.to_N i)) as (H1 & H2 & H3).
  repeat split.
  - intros C. apply map_eq_nil in C. contradiction.
  - apply forallb_digits; assumption.
  - rewrite H3. lia.
Qed.


(** ** The record *)


Lemma make_entry_encoded (cfg : str) (index appid : Z)
    (appname exe startdir : str) (name_b exe_b dir_b icon_b : bytes) :
  0 <= appid <= 0xFFFFFFFF ->
  encode appname = Some name_b ->
  encode exe = Some exe_b ->
  encode startdir = Some dir_b ->
  encode (cfg ++ slit "/grid/" ++ str_int appid ++ slit "_icon.ico")
    = Some icon_b ->
  make_entry cfg index appid appname exe startdir
  = Ok (record_layout index appid name_b exe_b dir_b icon_b).
Proof.
  intros Hid Hn He Hd Hi.
  rewrite !encode_app, encode_str_int in Hi.
  destruct (encode cfg) as [cfg_b|] eqn:Hc; [|discriminate].
  change (encode (slit "/grid/")) with (Some (blit "/grid/")) in Hi.
  change (encode (slit "_icon.ico")) with (Some (blit "_icon.ico")) in Hi.
  injection Hi as <-.
  unfold make_entry, record_layout, text_field.
  rewrite !encode_str_int, (pack_u32_le_in_range _ Hid), Hn, He, Hd, Hc.
  cbn [lift bind].
  repeat (progress (cbn [app]; rewrite <- ?app_assoc)). reflexivity.
Qed.



(** ** The identifier: claims *)

Lemma computeAppId_well_formed (displayName executablePath : str) :
  well_formed (displayName ++ executablePath) ->
  exists payload,
    encode (displayName ++ executablePath) = Some payload
    /\ computeAppId displayName executablePath = Some (appid_spec payload)
    /\ 0 <= appid_spec payload < 2 ^ 32.
Proof.
  intros H. destruct (encode_total _ H) as [payload E].
  exists payload. unfold computeAppId. rewrite E, appid_of_bytes_spec.
  repeat split; try reflexivity;
    rewrite <- appid_of_bytes_spec;
    pose proof (appid_of_bytes_range payload); lia.
Qed.

(** C1, as amended.  For every pair of texts free of surrogate code
    points, [computeAppId] returns the 32-bit value obtained from the
    CRC-32 of the UTF-8 bytes of displayName + executablePath by
    masking to 32 bits and then setting bit 31; on these inputs it
    always returns. *)
Theorem computeAppId_correct (displayName executablePath : str) :
  well_formed (displayName ++ executablePath) ->
  exists payload,
    encode (displayName ++ executablePath) = Some payload
    /\ computeAppId displayName executablePath = Some (appid_spec payload)
    /\ 0 <= appid_spec payload < 2 ^ 32.
Proof. exact (computeAppId_well_formed displayName executablePath). Qed.

Lemma computeAppId_correct_witness :
  exists payload,
    encode (APPNAME ++ slit "/x/run.sh") = Some payload
    /\ computeAppId APPNAME (slit "/x/run.sh") = Some (appid_spec payload)
    /\ 0 <= appid_spec payload < 2 ^ 32.
Proof.
  apply (computeAppId_correct APPNAME (slit "/x/run.sh")).
  apply encode_defined. vm_compute. discriminate.
Defined.

(** C1 as stated fails: a text holding a lone surrogate, such as the
    path /home/<U+DCFF>/run.sh that [os.path.expanduser] yields for a
    home directory whose name is not valid UTF-8, makes the encoding
    raise, and no identifier is returned. *)
Lemma computeAppId_surrogate_raises :
  computeAppId APPNAME (slit "/home/" ++ [0xDCFF%N] ++ slit "/run.sh") = None.
Proof. vm_compute. reflexivity. Qed.

(** C7.  Whatever the two strings, empty ones included, the value
    [computeAppId] returns has bit 31 set, that is, it is at least
    0x80000000. *)
Theorem computeAppId_high_bit (displayName executablePath : str) (v : Z) :
  computeAppId displayName executablePath = Some v ->
  Z.testbit v 31 = true /\ 0x80000000 <= v.
Proof.
  intros H. apply computeAppId_bytes in H as (payload & _ & ->).
  split; [apply appid_of_bytes_bit31|apply appid_of_bytes_range].
Qed.

Lemma computeAppId_high_bit_witness :
  computeAppId [] [] = Some 0x80000000
  /\ Z.testbit 0x80000000 31 = true /\ 0x80000000 <= 0x80000000.
Proof.
  split; [reflexivity|].
  apply (computeAppId_high_bit [] [] 0x80000000). reflexivity.
Defined.

(** C9.  Every value [computeAppId] returns lies in
    [0x80000000, 0xFFFFFFFF]; [struct.pack('<I', _)] therefore returns
    its four little-endian bytes, and [make_entry] never fails with an
    out-of-range error on it. *)
Theorem computeAppId_packable (displayName executablePath : str) (v : Z) :
  computeAppId displayName executablePath = Some v ->
  0x80000000 <= v <= 0xFFFFFFFF
  /\ pack_u32_le v = Some (u32_le v)
  /\ forall cfg index appname exe startdir,
       make_entry cfg index v appname exe startdir <> Err StructError.
Proof.
  intros H. apply computeAppId_bytes in H as (payload & _ & ->).
  pose proof (appid_of_bytes_range payload) as R.
  split; [exact R|]. split.
  - apply pack_u32_le_in_range. lia.
  - intros. apply make_entry_no_struct_error. lia.
Qed.

Lemma computeAppId_packable_witness :
  0x80000000 <= 3936777386 <= 0xFFFFFFFF
  /\ pack_u32_le 3936777386 = Some (u32_le 3936777386)
  /\ forall cfg index appname exe startdir,
       make_entry cfg index 3936777386 appname exe startdir <> Err StructError.
Proof.
  apply (computeAppId_packable APPNAME (slit "/x/run.sh") 3936777386).
  vm_compute. reflexivity.
Defined.

(** ** The pattern at one position *)

Lemma is_null_iff (b : byte) : is_null b = true <-> b = x00.
Proof.
  unfold is_null. split; [apply Byte.byte_dec_bl|apply Byte.byte_dec_lb].
Qed.


Lemma span_digits_spec (l : bytes) :
  forall ds rest,
    span_digits l = (ds, rest) ->
    l = ds ++ rest
    /\ forallb is_digit ds = true
    /\ match rest with
       | [] => True
       | r :: _ => is_digit r = false
       end.
Proof.
  induction l as [|b l IH]; intros ds rest; simpl.
  - intros [= <- <-]. auto.
  - destruct (is_digit b) eqn:Eb.
    + destruct (span_digits l) as [ds' rest'].
      intros [= <- <-].
      destruct (IH ds' rest' eq_refl) as (-> & H1 & H2).
      simpl. rewrite Eb, H1. auto.
    + intros [= <- <-]. simpl. rewrite Eb. auto.
Qed.

Lemma span_digits_app (ds rest : bytes) :
  forallb is_digit ds = true ->
  match rest with
  | [] => True
  | r :: _ => is_digit r = false
  end ->
  span_digits (ds ++ rest) = (ds, rest).
Proof.
  intros Hds Hr. induction ds as [|d ds IH]; simpl in *.
  - destruct rest as [|r rest]; [reflexivity|].
    simpl. now rewrite Hr.
  - apply andb_true_iff in Hds as [Hd Hds].
    rewrite Hd, (IH Hds). reflexivity.
Qed.

(** [match_here] succeeds exactly on a null byte, a non-empty run of
    digits and a null byte. *)
Lemma match_here_iff (l ds rest : bytes) :
  match_here l = Some (ds, rest)
  <-> l = [x00] ++ ds ++ [x00] ++ rest
      /\ ds <> []
      /\ forallb is_digit ds = true.
Proof.
  split.
  - destruct l as [|b l]; simpl; [discriminate|].
    destruct (is_null b) eqn:Eb; [|discriminate].
    apply is_null_iff in Eb. subst b.
    destruct (span_digits l) as [ds0 rest0] eqn:Es.
    apply span_digits_spec in Es as (-> & Hds & _).
    destruct ds0 as [|d ds0]; [discriminate|].
    destruct rest0 as [|r rest0]; [discriminate|].
    destruct (is_null r) eqn:Er; [|discriminate].
    apply is_null_iff in Er. subst r.
    intros [= <- <-]. repeat split; [discriminate|assumption].
  - intros (-> & Hne & Hds). simpl.
    rewrite span_digits_app by (assumption || reflexivity).
    destruct ds as [|d ds]; [contradiction|reflexivity].
Qed.

Lemma occurrence_iff (data : bytes) (k : nat) (ds : bytes) :
  occurrence data k ds
  <-> exists rest, match_here (skipn k data) = Some (ds, rest).
Proof.
  split.
  - intros (pre & post & -> & <- & Hne & Hds).
    exists post. apply match_here_iff. repeat split; try assumption.
    rewrite skipn_app, skipn_all, Nat.sub_diag. reflexivity.
  - intros [rest H]. apply match_here_iff in H as (E & Hne & Hds).
    exists (firstn k data), rest. repeat split; try assumption.
    + rewrite <- E. symmetry. apply firstn_skipn.
    + apply firstn_length_le.
      destruct (Nat.le_gt_cases k (length data)) as [|Hgt]; [assumption|].
      rewrite skipn_all2 in E by lia. discriminate.
Qed.

Lemma occurrence_unique (data : bytes) (k : nat) (ds ds' : bytes) :
  occurrence data k ds -> occurrence data k ds' -> ds = ds'.
Proof.
  intros H H'. apply occurrence_iff in H as [r E], H' as [r' E'].
  congruence.
Qed.

Lemma occurrence_bound (data : bytes) (k : nat) (ds : bytes) :
  occurrence data k ds -> (k + length ds + 2 <= length data)%nat.
Proof.
  intros (pre & post & -> & <- & _). rewrite !length_app. simpl. lia.
Qed.

(** ** The scan *)

Lemma scan_fuel (f1 : nat) :
  forall (f2 pos : nat) (l : bytes),
    (length l < f1)%nat -> (length l < f2)%nat ->
    scan f1 pos l = scan f2 pos l.
Proof.
  induction f1 as [|f1 IH]; intros f2 pos l H1 H2; [lia|].
  destruct f2 as [|f2]; [lia|].
  cbn [scan].
  destruct (match_here l) as [[ds rest]|] eqn:E.
  - apply match_here_iff in E as (-> & _).
    rewrite !length_app in H1, H2. simpl in H1, H2.
    f_equal. apply IH; lia.
  - destruct l as [|b l]; [reflexivity|].
    simpl in H1, H2. apply IH; lia.
Qed.

Lemma scan_S (fuel pos : nat) (l : bytes) :
  scan (S fuel) pos l =
  match match_here l with
  | Some (ds, rest) => (pos, ds) :: scan fuel (pos + (length ds + 2)) rest
  | None =>
      match l with
      | [] => []
      | _ :: l' => scan fuel (S pos) l'
      end
  end.
Proof. reflexivity. Qed.

(** The scan as the engine runs it, with the fuel out of the way. *)
Lemma scan_match (pos : nat) (l ds rest : bytes) :
  match_here l = Some (ds, rest) ->
  scan (S (length l)) pos l
  = (pos, ds) :: scan (S (length rest)) (pos + (length ds + 2)) rest.
Proof.
  intros E. rewrite (scan_S (length l) pos l), E. f_equal.
  apply match_here_iff in E as (-> & _).
  apply scan_fuel; rewrite ?length_app; simpl; lia.
Qed.

Lemma scan_skip (pos : nat) (b : byte) (l : bytes) :
  match_here (b :: l) = None ->
  scan (S (length (b :: l))) pos (b :: l) = scan (S (length l)) (S pos) l.
Proof.
  intros E. rewrite (scan_S (length (b :: l)) pos (b :: l)), E.
  apply scan_fuel; simpl; lia.
Qed.

Lemma leftmost_nonoverlapping_skip (data : bytes) (from : nat)
    (ms : list (nat * bytes)) :
  (forall ds, ~ occurrence data from ds) ->
  leftmost_nonoverlapping data (S from) ms ->
  leftmost_nonoverlapping data from ms.
Proof.
  intros Hno H. destruct ms as [|[i ds] ms]; simpl in *.
  - intros k ds' Hk. destruct (Nat.eq_dec k from) as [->|];
      [apply Hno|apply H; lia].
  - destruct H as (H1 & H2 & H3 & H4). repeat split; try assumption; [lia|].
    intros k ds' Hk. destruct (Nat.eq_dec k from) as [->|];
      [apply Hno|apply H3; lia].
Qed.

(** The scan finds the leftmost non-overlapping occurrences. *)
Lemma scan_leftmost (data : bytes) (n : nat) :
  forall (pos : nat) (l : bytes),
    length l = n ->
    l = skipn pos data ->
    leftmost_nonoverlapping data pos (scan (S (length l)) pos l).
Proof.
  induction n as [n IH] using lt_wf_ind. intros pos l Hn Hl.
  destruct (match_here l) as [[ds rest]|] eqn:E.
  - rewrite (scan_match _ _ _ _ E). simpl.
    assert (Hocc : occurrence data pos ds).
    { apply occurrence_iff. exists rest. now rewrite <- Hl. }
    repeat split; [lia|assumption|intros; lia|].
    apply match_here_iff in E as (E & _).
    apply (IH (length rest)).
    + subst n. rewrite E, !length_app. simpl. lia.
    + reflexivity.
    + rewrite Nat.add_comm, <- skipn_skipn, <- Hl, E.
      replace (length ds + 2)%nat with (length ([x00] ++ ds ++ [x00])).
      * rewrite !app_assoc, <- (app_assoc [x00]).
        rewrite skipn_app, skipn_all, Nat.sub_diag. reflexivity.
      * rewrite !length_app. simpl. lia.
  - assert (Hno : forall ds, ~ occurrence data pos ds).
    { intros ds H. apply occurrence_iff in H as [rest H].
      rewrite <- Hl in H. congruence. }
    destruct l as [|b l].
    + simpl. intros k ds Hk H. apply occurrence_bound in H.
      assert (length (skipn pos data) = 0%nat) as L by now rewrite <- Hl.
      rewrite length_skipn in L. lia.
    + rewrite (scan_skip _ _ _ E).
      apply leftmost_nonoverlapping_skip; [assumption|].
      apply (IH (length l)).
      * subst n. simpl. lia.
      * reflexivity.
      * change (S pos) with (1 + pos)%nat.
        rewrite <- skipn_skipn, <- Hl. reflexivity.
Qed.

Lemma finditer_leftmost (data : bytes) :
  leftmost_nonoverlapping data 0 (finditer data).
Proof.
  unfold finditer. now apply (scan_leftmost data (length data)).
Qed.

Lemma leftmost_nonoverlapping_In (data : bytes) (ms : list (nat * bytes)) :
  forall from i ds,
    leftmost_nonoverlapping data from ms ->
    In (i, ds) ms ->
    (from <= i)%nat /\ occurrence data i ds.
Proof.
  induction ms as [|[j d] ms IH]; intros from i ds H Hin; [contradiction|].
  destruct H as (H1 & H2 & _ & H4).
  destruct Hin as [[= -> ->]|Hin]; [auto|].
  destruct (IH _ _ _ H4 Hin). split; [lia|assumption].
Qed.



(** The specification determines the list of matches. *)
Lemma leftmost_nonoverlapping_unique (data : bytes)
    (ms : list (nat * bytes)) :
  forall from ms',
    leftmost_nonoverlapping data from ms ->
    leftmost_nonoverlapping data from ms' ->
    ms = ms'.
Proof.
  induction ms as [|[i ds] ms IH]; intros from ms' H H'.
  - destruct ms' as [|[i' ds'] ms']; [reflexivity|].
    destruct H' as (H1 & H2 & _). exfalso. exact (H _ _ H1 H2).
  - destruct ms' as [|[i' ds'] ms'].
    + destruct H as (H1 & H2 & _). exfalso. exact (H' _ _ H1 H2).
    + destruct H as (H1 & H2 & H3 & H4), H' as (H1' & H2' & H3' & H4').
      assert (i = i') as <-.
      { destruct (Nat.lt_trichotomy i i') as [Hlt|[?|Hgt]]; [|assumption|].
        - exfalso. apply (H3' i ds); [lia|assumption].
        - exfalso. apply (H3 i' ds'); [lia|assumption]. }
      assert (ds = ds') as <- by (eapply occurrence_unique; eassumption).
      f_equal. eapply IH; eassumption.
Qed.

(** ** int() on the digits of a match *)

Lemma is_digit_value (d : byte) :
  is_digit d = true -> 0 <= Z_of_byte d - 48 <= 9.
Proof.
  unfold is_digit, Z_of_byte. intros H.
  apply andb_true_iff in H as [H0 H1].
  apply N.leb_le in H0, H1. lia.
Qed.

Lemma digits_value_nonneg (ds : bytes) :
  forall acc,
    0 <= acc -> forallb is_digit ds = true -> 0 <= digits_value acc ds.
Proof.
  induction ds as [|d ds IH]; intros acc Hacc H;
    cbn [digits_value forallb] in *; [assumption|].
  apply andb_true_iff in H as [Hd Hds].
  apply IH; [|assumption]. pose proof (is_digit_value d Hd). lia.
Qed.

Lemma int_of_bytes_digits (ds : bytes) :
  ds <> [] -> forallb is_digit ds = true ->
  int_of_bytes ds = Some (digits_value 0 ds).
Proof.
  intros Hne H. unfold int_of_bytes.
  destruct ds as [|d ds]; [contradiction|].
  now rewrite H, fold_left_digits_value.
Qed.

Lemma occurrence_digits (data : bytes) (i : nat) (ds : bytes) :
  occurrence data i ds ->
  int_of_bytes ds = Some (digits_value 0 ds) /\ 0 <= digits_value 0 ds.
Proof.
  intros (_ & _ & _ & _ & Hne & H). split.
  - now apply int_of_bytes_digits.
  - apply digits_value_nonneg; [lia|assumption].
Qed.

(** ** get_latest_index *)


Lemma get_latest_index_last (data : bytes) (ms : list (nat * bytes))
    (j : nat) (ds : bytes) :
  finditer data = ms ++ [(j, ds)] ->
  get_latest_index data = Some (digits_value 0 ds).
Proof.
  intros E. unfold get_latest_index, findall.
  assert (Hocc : occurrence data j ds).
  { apply (leftmost_nonoverlapping_In data (finditer data) 0%nat).
    - apply finditer_leftmost.
    - rewrite E. apply in_or_app. right. now left. }
  rewrite E, map_app. simpl map.
  rewrite last_last.
  destruct (map snd ms ++ [ds]) eqn:El.
  - apply app_eq_nil in El as [_ El]. discriminate.
  - now apply occurrence_digits in Hocc as [-> _].
Qed.

Lemma list_last_cases {A : Type} (l : list A) :
  l = [] \/ exists l' a, l = l' ++ [a].
Proof.
  destruct l as [|x l]; [now left|right].
  exists (removelast (x :: l)), (last (x :: l) x).
  apply app_removelast_last. discriminate.
Qed.


(** ** The next index: claims *)





(** C5.  What the code does on the containers of the claim: with the
    records keyed 0, 2, 5 in this order [nextIndex] returns 6, and on
    the empty container 0; but with the same records in the order
    5, 0, 2 the index markers are found in that order and [nextIndex]
    returns 3, one plus the last one found, although 5 is in use. *)
Theorem nextIndex_follows_last_marker :
  findall (container_of [0; 2; 5]) = [[x30]; [x32]; [x35]]
  /\ nextIndex (container_of [0; 2; 5]) = Some 6
  /\ findall (container_of [5; 0; 2]) = [[x35]; [x30]; [x32]]
  /\ nextIndex (container_of [5; 0; 2]) = Some 3
  /\ nextIndex empty_container = Some 0
  /\ nextIndex [] = Some 0.
Proof. vm_compute. repeat split; reflexivity. Qed.





(** ** The splice *)

Lemma bytes_eqb_iff (a b : bytes) : bytes_eqb a b = true <-> a = b.
Proof.
  unfold bytes_eqb. destruct (list_eq_dec byte_eq_dec a b); split;
    congruence.
Qed.

Lemma endswith_iff (data suffix : bytes) :
  endswith data suffix = true <-> ends_with suffix data.
Proof.
  unfold endswith, ends_with. rewrite andb_true_iff, bytes_eqb_iff. split.
  - intros [_ E]. exists (firstn (length data - length suffix) data).
    pose proof (firstn_skipn (length data - length suffix) data) as F.
    rewrite E in F. now symmetry.
  - intros [pre ->]. rewrite length_app. split.
    + apply Nat.leb_le. lia.
    + replace (length pre + length suffix - length suffix)%nat
        with (length pre) by lia.
      rewrite skipn_app, skipn_all, Nat.sub_diag. reflexivity.
Qed.

Lemma drop_last2_app (pre : bytes) (a b : byte) :
  drop_last2 (pre ++ [a; b]) = pre.
Proof.
  unfold drop_last2. rewrite length_app. simpl length.
  replace (length pre + 2 - 2)%nat with (length pre) by lia.
  rewrite firstn_app, firstn_all, Nat.sub_diag. simpl. apply app_nil_r.
Qed.

Lemma insertEntry_app (pre entry : bytes) :
  insertEntry (pre ++ terminator) entry = Ok (pre ++ entry ++ terminator).
Proof.
  unfold insertEntry.
  assert (endswith (pre ++ terminator) terminator = true) as ->
    by (apply endswith_iff; now exists pre).
  unfold terminator at 1. now rewrite drop_last2_app.
Qed.

(** C2.  On a container that ends with the two terminator bytes,
    [insertEntry] returns the container without its last two bytes,
    then the entry, then the two terminator bytes: each byte before
    the removed suffix keeps its position, the entry follows that
    prefix at once, and the result ends with the terminator. *)
Theorem insertEntry_splice (data entry : bytes) :
  ends_with [x08; x08] data ->
  exists out,
    insertEntry data entry = Ok out
    /\ data = firstn (length data - 2) data ++ [x08; x08]
    /\ out = firstn (length data - 2) data ++ entry ++ [x08; x08]
    /\ length out = (length data + length entry)%nat
    /\ (forall i, (i < length data - 2)%nat ->
          nth_error out i = nth_error data i)
    /\ (forall j, (j < length entry)%nat ->
          nth_error out (length data - 2 + j) = nth_error entry j)
    /\ skipn (length data - 2 + length entry) out = [x08; x08].
Proof.
  intros [pre ->].
  exists (pre ++ entry ++ [x08; x08]).
  change [x08; x08] with terminator.
  rewrite insertEntry_app.
  rewrite length_app. simpl length.
  replace (length pre + 2 - 2)%nat with (length pre) by lia.
  rewrite firstn_app, firstn_all, Nat.sub_diag. simpl firstn.
  rewrite app_nil_r.
  repeat split.
  - rewrite !length_app. simpl. lia.
  - intros i Hi. rewrite !nth_error_app1 by assumption. reflexivity.
  - intros j Hj. rewrite nth_error_app2 by lia.
    replace (length pre + j - length pre)%nat with j by lia.
    now rewrite nth_error_app1.
  - rewrite app_assoc, skipn_app, <- length_app, skipn_all, Nat.sub_diag.
    reflexivity.
Qed.

Lemma insertEntry_splice_witness :
  exists out,
    insertEntry empty_container [x01; x02] = Ok out
    /\ out = [x00] ++ blit "shortcuts" ++ [x00] ++ [x01; x02] ++ [x08; x08].
Proof.
  destruct (insertEntry_splice empty_container [x01; x02])
    as (out & H1 & _ & H3 & _).
  - exists ([x00] ++ blit "shortcuts" ++ [x00]). reflexivity.
  - exists out. split; [exact H1|exact H3].
Defined.

(** ** The run *)

Lemma well_formed_app (a b : str) :
  well_formed a -> well_formed b -> well_formed (a ++ b).
Proof. intros Ha Hb. apply Forall_app. now split. Qed.

Lemma well_formed_ascii (s : str) :
  Forall (fun c => (c < 128)%N) s -> well_formed s.
Proof.
  intros H. apply encode_defined. now rewrite encode_ascii.
Qed.

Lemma well_formed_APPNAME : well_formed APPNAME.
Proof. apply encode_defined. vm_compute. discriminate. Qed.

Lemma make_entry_total (cfg : str) (index appid : Z)
    (appname exe startdir : str) :
  0 <= appid <= 0xFFFFFFFF ->
  well_formed cfg -> well_formed appname ->
  well_formed exe -> well_formed startdir ->
  exists name_b exe_b dir_b icon_b,
    make_entry cfg index appid appname exe startdir
    = Ok (record_layout index appid name_b exe_b dir_b icon_b).
Proof.
  intros Hid Hc Hn He Hd.
  destruct (encode_total _ Hn) as [name_b En].
  destruct (encode_total _ He) as [exe_b Ee].
  destruct (encode_total _ Hd) as [dir_b Ed].
  destruct (encode_total (cfg ++ slit "/grid/" ++ str_int appid
                            ++ slit "_icon.ico")) as [icon_b Ei].
  { repeat apply well_formed_app; try assumption.
    - apply encode_defined. vm_compute. discriminate.
    - apply well_formed_ascii, str_int_ascii.
    - apply encode_defined. vm_compute. discriminate. }
  exists name_b, exe_b, dir_b, icon_b.
  now apply make_entry_encoded.
Qed.




(** ** The end-to-end example *)

(** C8.  From the fresh container 0x00 'shortcuts' 0x00 0x08 0x08,
    [nextIndex] is 0; the identifier of ("Minecraft Splitscreen",
    "/x/run.sh") is 3936777386; and after the record is built and
    inserted the result keeps the first 7 bytes of the header, holds
    0x00 '0' 0x00, holds 0x02 'appid' 0x00 followed by the four
    little-endian bytes of the identifier, and ends with 0x08 0x08. *)
Theorem end_to_end_example (cfg startdir : str) :
  well_formed cfg -> well_formed startdir ->
  nextIndex empty_container = Some 0
  /\ computeAppId (slit "Minecraft Splitscreen") (slit "/x/run.sh")
     = Some 3936777386
  /\ exists entry out,
       make_entry cfg 0 3936777386 (slit "Minecraft Splitscreen")
         (slit "/x/run.sh") startdir = Ok entry
       /\ insertEntry empty_container entry = Ok out
       /\ firstn 7 out = firstn 7 empty_container
       /\ contains [x00; x30; x00] out
       /\ contains ([x02] ++ blit "appid" ++ [x00] ++ u32_le 3936777386) out
       /\ u32_le 3936777386 = [xaa; x74; xa6; xea]
       /\ ends_with [x08; x08] out.
Proof.
  intros Hc Hs.
  split; [reflexivity|]. split; [vm_compute; reflexivity|].
  destruct (make_entry_total cfg 0 3936777386 (slit "Minecraft Splitscreen")
              (slit "/x/run.sh") startdir) as (nb & eb & db & ib & E);
    try assumption; [lia|apply well_formed_APPNAME| |].
  { apply encode_defined. vm_compute. discriminate. }
  set (header := [x00] ++ blit "shortcuts" ++ [x00]).
  exists (record_layout 0 3936777386 nb eb db ib),
    (header ++ record_layout 0 3936777386 nb eb db ib ++ terminator).
  split; [exact E|].
  split; [exact (insertEntry_app header _)|].
  split; [reflexivity|].
  split.
  { exists header. eexists. unfold record_layout.
    change (decimal_text 0) with [x30]. reflexivity. }
  split.
  { exists (header ++ [x00; x30; x00]). eexists. unfold record_layout.
    change (decimal_text 0) with [x30].
    rewrite <- !app_assoc. reflexivity. }
  split; [vm_compute; reflexivity|].
  exists (header ++ record_layout 0 3936777386 nb eb db ib).
  now rewrite <- app_assoc.
Qed.

Lemma end_to_end_example_witness :
  exists entry out,
    make_entry (slit "/cfg") 0 3936777386 (slit "Minecraft Splitscreen")
      (slit "/x/run.sh") (slit "/x") = Ok entry
    /\ insertEntry empty_container entry = Ok out
    /\ firstn 7 out = firstn 7 empty_container
    /\ contains [x00; x30; x00] out
    /\ contains ([x02] ++ blit "appid" ++ [x00] ++ u32_le 3936777386) out
    /\ u32_le 3936777386 = [xaa; x74; xa6; xea]
    /\ ends_with [x08; x08] out.
Proof.
  apply (end_to_end_example (slit "/cfg") (slit "/x"));
    apply encode_defined; vm_compute; discriminate.
Defined.

(** The same example as a run of the script on a machine where
    [shortcuts.vdf] does not exist yet: the file is first created
    empty, then rewritten with the record at index 0. *)
Lemma main_fresh_install :
  let launcher := {| EXE := slit "/x/run.sh"; STARTDIR := slit "/x";
                     LAUNCHER_NAME := slit "PrismLauncher" |} in
  let env := {| detect_launcher := Some launcher;
                config_dir := Some (slit "/cfg") |} in
  main env {| shortcuts_file := None; writes := [] |}
  = ({| shortcuts_file := Some (container_of [0]);
        writes := [empty_container; container_of [0]] |},
     Ok (0, 3936777386)).
Proof. vm_compute. reflexivity. Qed.

(* ================================================================== *)
(** * Further properties *)

(** ** The scan across a splice *)

Lemma closed_on_right_suffix (a r : bytes) :
  closed_on_right (a ++ r) -> closed_on_right r.
Proof.
  intros H l' b ->. apply (H (a ++ l') b). now rewrite app_assoc.
Qed.

Lemma closed_on_right_last (l : bytes) :
  is_digit (last l x08) = false -> closed_on_right l.
Proof.
  intros H l' b ->. now rewrite last_last in H.
Qed.

Lemma closed_on_right_digits (ds : bytes) :
  ds <> [] -> forallb is_digit ds = true -> ~ closed_on_right ds.
Proof.
  intros Hne Hd Hc.
  destruct (list_last_cases ds) as [->|(l' & b & ->)]; [contradiction|].
  rewrite forallb_app in Hd. apply andb_true_iff in Hd as [_ Hb].
  simpl in Hb. rewrite (Hc l' b eq_refl) in Hb. discriminate.
Qed.

Lemma span_digits_app_closed (l X : bytes) :
  closed_on_right l -> head_not_digit X ->
  span_digits (l ++ X) = (fst (span_digits l), snd (span_digits l) ++ X).
Proof.
  intros Hc HX. induction l as [|b l IH].
  - simpl. destruct X as [|x X]; [reflexivity|].
    simpl in *. now rewrite HX.
  - cbn [app span_digits].
    destruct (is_digit b) eqn:Eb; [|reflexivity].
    rewrite IH by exact (closed_on_right_suffix [b] l Hc).
    now destruct (span_digits l).
Qed.

Lemma match_here_app (l X : bytes) :
  closed_on_right l -> head_not_digit X ->
  match_here (l ++ X)
  = match l with
    | [] => match_here X
    | _ :: _ =>
        match match_here l with
        | Some (ds, rest) => Some (ds, rest ++ X)
        | None => None
        end
    end.
Proof.
  intros Hc HX. destruct l as [|b l]; [reflexivity|].
  cbn [app match_here].
  destruct (is_null b); [|reflexivity].
  rewrite span_digits_app_closed
    by (assumption || exact (closed_on_right_suffix [b] l Hc)).
  destruct (span_digits l) as [ds rest] eqn:Es. cbn [fst snd].
  destruct ds as [|d ds]; [reflexivity|].
  destruct rest as [|r rest].
  - exfalso. apply span_digits_spec in Es as (-> & Hd & _).
    rewrite app_nil_r in Hc.
    apply (closed_on_right_digits (d :: ds)); [discriminate|assumption|].
    exact (closed_on_right_suffix [b] _ Hc).
  - cbn [app]. now destruct (is_null r).
Qed.

(** The scan over [l ++ X] is the scan over [l] followed by the scan
    over [X], when no match can straddle the boundary. *)
Lemma scan_app (n : nat) :
  forall (l X : bytes) (pos : nat),
    length l = n ->
    closed_on_right l -> head_not_digit X ->
    scan (S (length (l ++ X))) pos (l ++ X)
    = scan (S (length l)) pos l ++ scan (S (length X)) (pos + length l) X.
Proof.
  induction n as [n IH] using lt_wf_ind. intros l X pos Hn Hc HX.
  destruct l as [|b l].
  - simpl app. simpl length. now rewrite Nat.add_0_r.
  - pose proof (match_here_app (b :: l) X Hc HX) as Ha. cbn iota in Ha.
    destruct (match_here (b :: l)) as [[ds rest]|] eqn:E.
    + rewrite (scan_match _ _ _ _ Ha), (scan_match _ _ _ _ E).
      apply match_here_iff in E as (E & _).
      assert (Hl : (length (b :: l) = length ds + 2 + length rest)%nat).
      { rewrite E, !length_app. simpl. lia. }
      rewrite (IH (length rest)); try reflexivity.
      * replace (pos + length (b :: l))%nat
          with (pos + (length ds + 2) + length rest)%nat by lia.
        reflexivity.
      * lia.
      * rewrite E in Hc. rewrite !app_assoc in Hc.
        exact (closed_on_right_suffix _ _ Hc).
      * assumption.
    + change ((b :: l) ++ X) with (b :: (l ++ X)) in *.
      rewrite (scan_skip _ _ _ Ha), (scan_skip _ _ _ E).
      rewrite (IH (length l)); try reflexivity.
      * replace (pos + length (b :: l))%nat
          with (S pos + length l)%nat by (simpl; lia).
        reflexivity.
      * subst n. simpl. lia.
      * exact (closed_on_right_suffix [b] l Hc).
      * assumption.
Qed.

Lemma scan_shift (fuel : nat) :
  forall (pos : nat) (l : bytes),
    scan fuel pos l
    = map (fun m => ((fst m + pos)%nat, snd m)) (scan fuel 0 l).
Proof.
  induction fuel as [|fuel IH]; intros pos l; [reflexivity|].
  rewrite !scan_S.
  destruct (match_here l) as [[ds rest]|].
  - cbn [map fst snd]. f_equal.
    rewrite (IH (pos + (length ds + 2))%nat), (IH (0 + (length ds + 2))%nat).
    rewrite map_map. apply map_ext. intros [i d]. simpl. f_equal. lia.
  - destruct l as [|b l]; [reflexivity|].
    rewrite (IH (S pos)), (IH 1%nat).
    rewrite map_map. apply map_ext. intros [i d]. simpl. f_equal. lia.
Qed.



Lemma record_layout_body (index appid : Z) (nb eb db ib : bytes) :
  record_layout index appid nb eb db ib
  = [x00] ++ decimal_text index ++ [x00] ++ record_body appid nb eb db ib.
Proof. reflexivity. Qed.




(** ** The run, once more *)

Lemma pack_u32_le_some (v : Z) (packed : bytes) :
  pack_u32_le v = Some packed -> 0 <= v <= 0xFFFFFFFF /\ packed = u32_le v.
Proof.
  intros H.
  destruct (Z_lt_le_dec v 0) as [Hneg|Hnn].
  { rewrite pack_u32_le_out_of_range in H by lia. discriminate. }
  destruct (Z_lt_le_dec 0xFFFFFFFF v) as [Hbig|Hle].
  { rewrite pack_u32_le_out_of_range in H by lia. discriminate. }
  rewrite pack_u32_le_in_range in H by lia.
  injection H as <-. split; [lia|reflexivity].
Qed.

Lemma make_entry_inv (cfg : str) (index appid : Z)
    (appname exe startdir : str) (entry : bytes) :
  make_entry cfg index appid appname exe startdir = Ok entry ->
  exists nb eb db cb,
    encode appname = Some nb /\ encode exe = Some eb
    /\ encode startdir = Some db /\ encode cfg = Some cb
    /\ 0 <= appid <= 0xFFFFFFFF
    /\ entry = record_layout index appid nb eb db
                 (cb ++ blit "/grid/" ++ decimal_text appid
                  ++ blit "_icon.ico").
Proof.
  unfold make_entry. rewrite !encode_str_int. cbn [lift bind].
  destruct (pack_u32_le appid) as [packed|] eqn:Ep; [|discriminate].
  apply pack_u32_le_some in Ep as [Hr ->]. cbn [lift bind].
  destruct (encode appname) as [nb|]; [|discriminate]. cbn [lift bind].
  destruct (encode exe) as [eb|]; [|discriminate]. cbn [lift bind].
  destruct (encode startdir) as [db|]; [|discriminate]. cbn [lift bind].
  destruct (encode cfg) as [cb|]; [|discriminate]. cbn [lift bind].
  intros [= <-]. exists nb, eb, db, cb.
  repeat split; try lia.
  unfold record_layout, text_field.
  repeat (progress (cbn [app]; rewrite <- ?app_assoc)). reflexivity.
Qed.


Lemma insertEntry_inv (data entry out : bytes) :
  insertEntry data entry = Ok out ->
  exists pre, data = pre ++ terminator /\ out = pre ++ entry ++ terminator.
Proof.
  unfold insertEntry.
  destruct (endswith data terminator) eqn:E; [|discriminate].
  apply endswith_iff in E as [pre ->].
  unfold terminator at 1. rewrite drop_last2_app.
  intros [= <-]. now exists pre.
Qed.

Lemma add_shortcut_inv (cfg : str) (l : Launcher) (data : bytes)
    (i a : Z) (new_data : bytes) :
  add_shortcut cfg l data = Ok (i, a, new_data) ->
  nextIndex data = Some i
  /\ computeAppId APPNAME (EXE l) = Some a
  /\ exists entry pre,
       make_entry cfg i a APPNAME (EXE l) (STARTDIR l) = Ok entry
       /\ data = pre ++ terminator
       /\ new_data = pre ++ entry ++ terminator.
Proof.
  unfold add_shortcut.
  destruct (nextIndex data) as [i'|]; [|discriminate]. cbn [lift bind].
  destruct (computeAppId APPNAME (EXE l)) as [a'|]; [|discriminate].
  cbn [lift bind].
  destruct (make_entry cfg i' a' APPNAME (EXE l) (STARTDIR l))
    as [entry|] eqn:Em; [|discriminate]. cbn [bind].
  destruct (insertEntry data entry) as [out|] eqn:Ei; [|discriminate].
  cbn [bind]. intros [= <- <- <-].
  apply insertEntry_inv in Ei as (pre & -> & ->).
  repeat split. now exists entry, pre.
Qed.


Lemma main_ok_inv (env : Env) (disk disk' : Disk) (i a : Z) :
  main env disk = (disk', Ok (i, a)) ->
  exists l cfg pre entry,
    detect_launcher env = Some l
    /\ config_dir env = Some cfg
    /\ match shortcuts_file disk with
       | Some data => data
       | None => empty_container
       end = pre ++ [x08; x08]
    /\ nextIndex (pre ++ [x08; x08]) = Some i
    /\ computeAppId APPNAME (EXE l) = Some a
    /\ make_entry cfg i a APPNAME (EXE l) (STARTDIR l) = Ok entry
    /\ shortcuts_file disk' = Some (pre ++ entry ++ [x08; x08])
    /\ writes disk'
       = writes disk
         ++ match shortcuts_file disk with
            | Some _ => []
            | None => [empty_container]
            end
         ++ [pre ++ entry ++ [x08; x08]].
Proof.
  unfold main.
  destruct (detect_launcher env) as [l|]; [|discriminate].
  destruct (config_dir env) as [cfg|]; [|discriminate].
  destruct (shortcuts_file disk) as [data|] eqn:Ed.
  - destruct (add_shortcut cfg l data) as [[[i' a'] new_data]|] eqn:Ea;
      [|discriminate].
    intros [= <- <- <-].
    apply add_shortcut_inv in Ea as (Hi & Hid & entry & pre & Hm & -> & ->).
    exists l, cfg, pre, entry. repeat split; assumption.
  - destruct (add_shortcut cfg l empty_container)
      as [[[i' a'] new_data]|] eqn:Ea; [|discriminate].
    intros [= <- <- <-].
    apply add_shortcut_inv in Ea as (Hi & Hid & entry & pre & Hm & E & ->).
    exists l, cfg, pre, entry. change [x08; x08] with terminator.
    rewrite <- E.
    repeat split; try assumption.
    simpl writes. now rewrite <- app_assoc.
Qed.

(** X3.  A run that succeeds appends exactly one record: the new
    contents are the old ones (the empty container if the file was
    missing) without the terminator, then the record that
    [make_entry] builds at the next index, then the terminator; the
    file is written once, after one more write that creates it when
    it was missing. *)
Theorem successful_run_appends_one_record (env : Env) (disk disk' : Disk)
    (i a : Z) :
  main env disk = (disk', Ok (i, a)) ->
  exists l cfg pre entry,
    detect_launcher env = Some l
    /\ config_dir env = Some cfg
    /\ match shortcuts_file disk with
       | Some data => data
       | None => empty_container
       end = pre ++ [x08; x08]
    /\ nextIndex (pre ++ [x08; x08]) = Some i
    /\ computeAppId APPNAME (EXE l) = Some a
    /\ make_entry cfg i a APPNAME (EXE l) (STARTDIR l) = Ok entry
    /\ shortcuts_file disk' = Some (pre ++ entry ++ [x08; x08])
    /\ writes disk'
       = writes disk
         ++ match shortcuts_file disk with
            | Some _ => []
            | None => [empty_container]
            end
         ++ [pre ++ entry ++ [x08; x08]].
Proof. exact (main_ok_inv env disk disk' i a). Qed.

Lemma successful_run_appends_one_record_witness :
  exists l cfg pre entry,
    Some {| EXE := slit "/x/run.sh"; STARTDIR := slit "/x";
            LAUNCHER_NAME := slit "PrismLauncher" |} = Some l
    /\ Some (slit "/cfg") = Some cfg
    /\ empty_container = pre ++ [x08; x08]
    /\ nextIndex (pre ++ [x08; x08]) = Some 0
    /\ computeAppId APPNAME (EXE l) = Some 3936777386
    /\ make_entry cfg 0 3936777386 APPNAME (EXE l) (STARTDIR l) = Ok entry
    /\ Some (container_of [0]) = Some (pre ++ entry ++ [x08; x08])
    /\ [empty_container; container_of [0]]
       = [] ++ [empty_container] ++ [pre ++ entry ++ [x08; x08]].
Proof.
  apply (successful_run_appends_one_record
           {| detect_launcher :=
                Some {| EXE := slit "/x/run.sh"; STARTDIR := slit "/x";
                        LAUNCHER_NAME := slit "PrismLauncher" |};
              config_dir := Some (slit "/cfg") |}
           {| shortcuts_file := None; writes := [] |}
           {| shortcuts_file := Some (container_of [0]);
              writes := [empty_container; container_of [0]] |}
           0 3936777386).
  vm_compute. reflexivity.
Defined.






(** ** The identifier field read as an index marker *)

Lemma finditer_splice_scan (pre body : bytes) (k : Z) :
  closed_on_right pre ->
  0 <= k ->
  finditer (pre ++ ([x00] ++ decimal_text k ++ [x00] ++ body) ++ terminator)
  = finditer (pre ++ terminator)
    ++ (length pre, decimal_text k)
       :: scan (S (length (body ++ terminator)))
            (0 + length pre + (length (decimal_text k) + 2))
            (body ++ terminator).
Proof.
  intros Hc Hk. unfold finditer.
  destruct (decimal_text_digits k Hk) as (Hne & Hd & _).
  rewrite (scan_app (length pre) pre terminator) by (trivial || reflexivity).
  rewrite (scan_app (length pre) pre
             (([x00] ++ decimal_text k ++ [x00] ++ body) ++ terminator))
    by (trivial || reflexivity).
  change (scan (S (length terminator)) (0 + length pre) terminator)
    with (@nil (nat * bytes)).
  rewrite app_nil_r. f_equal.
  assert (Hm : match_here (([x00] ++ decimal_text k ++ [x00] ++ body)
                           ++ terminator)
               = Some (decimal_text k, body ++ terminator)).
  { apply match_here_iff. repeat split; try assumption.
    now rewrite <- !app_assoc. }
  now rewrite (scan_match _ _ _ _ Hm).
Qed.

(** X6.  When the first little-endian byte of the identifier is an
    ASCII digit and the second is zero, the null byte that ends the
    name 'appid', that digit and the zero byte form an index marker
    for the scan: after the record is inserted at index [k], the scan
    finds the marker of [k] and then the digit, and the next index is
    the digit plus one, not [k + 1] (the rest of the record being free
    of matches). *)
Theorem appid_bytes_read_as_marker (pre : bytes) (k appid : Z)
    (nb eb db ib : bytes) (b0 b2 b3 : byte) :
  closed_on_right pre ->
  0 <= k ->
  u32_le appid = [b0; x00; b2; b3] ->
  is_digit b0 = true ->
  finditer
    ([b2; b3] ++ text_field "appname" nb ++ text_field "exe" eb
     ++ text_field "StartDir" db ++ text_field "icon" ib ++ [x08]
     ++ [x08; x08]) = [] ->
  exists out,
    insertEntry (pre ++ [x08; x08]) (record_layout k appid nb eb db ib)
    = Ok out
    /\ findall out = findall (pre ++ [x08; x08]) ++ [decimal_text k; [b0]]
    /\ nextIndex out = Some (Z_of_byte b0 - 48 + 1).
Proof.
  intros Hc Hk Hle Hb0 Hrest.
  eexists. split; [exact (insertEntry_app pre _)|].
  rewrite record_layout_body.
  pose proof (finditer_splice_scan pre (record_body appid nb eb db ib) k Hc Hk)
    as E.
  change [x08; x08] with terminator.
  remember (pre ++ ([x00] ++ decimal_text k ++ [x00]
                    ++ record_body appid nb eb db ib) ++ terminator)
    as out eqn:Eout.
  remember (finditer (pre ++ terminator)) as old eqn:Eold.
  set (tail := [b2; b3] ++ text_field "appname" nb ++ text_field "exe" eb
               ++ text_field "StartDir" db ++ text_field "icon" ib ++ [x08]
               ++ [x08; x08]) in *.
  assert (Hbody : record_body appid nb eb db ib ++ terminator
                  = ([x02] ++ blit "appid") ++ ([x00] ++ [b0] ++ [x00] ++ tail)).
  { unfold record_body, tail. rewrite Hle.
    repeat (progress (cbn [app]; rewrite <- ?app_assoc)). reflexivity. }
  rewrite Hbody in E.
  rewrite (scan_app 6 ([x02] ++ blit "appid")) in E;
    [|reflexivity|apply closed_on_right_last; reflexivity|reflexivity].
  assert (Hm : match_here ([x00] ++ [b0] ++ [x00] ++ tail)
               = Some ([b0], tail)).
  { apply match_here_iff. repeat split; [discriminate|].
    simpl. now rewrite Hb0. }
  rewrite (scan_match _ _ _ _ Hm) in E.
  unfold finditer in Hrest. rewrite (scan_shift _ _ tail), Hrest in E.
  match type of E with
  | context [scan ?f ?p ([x02] ++ blit "appid")] =>
      change (scan f p ([x02] ++ blit "appid")) with (@nil (nat * bytes)) in E
  end.
  cbn [app map] in E.
  match type of E with
  | _ = _ ++ [?m1; ?m2] =>
      change [m1; m2] with ([m1] ++ [m2]) in E; rewrite app_assoc in E
  end.
  split.
  - unfold findall. rewrite E, <- Eold, !map_app. cbn [map snd].
    now rewrite <- app_assoc.
  - unfold nextIndex. rewrite (get_latest_index_last _ _ _ _ E).
    reflexivity.
Qed.

Lemma appid_bytes_read_as_marker_witness :
  let exe := blit "/home/user5958/.local/share/PrismLauncher/minecraftSplitscreen.sh" in
  let dir := blit "/home/user5958/.local/share/PrismLauncher" in
  let icon := blit "/home/user5958/.steam/steam/userdata/12345/config/grid/2574123058_icon.ico" in
  computeAppId APPNAME
    (slit "/home/user5958/.local/share/PrismLauncher/minecraftSplitscreen.sh")
  = Some 2574123058
  /\ exists out,
       insertEntry empty_container
         (record_layout 0 2574123058 (blit "Minecraft Splitscreen") exe dir icon)
       = Ok out
       /\ findall out = findall empty_container ++ [decimal_text 0; [x32]]
       /\ nextIndex out = Some (Z_of_byte x32 - 48 + 1).
Proof.
  intros exe dir icon. split; [vm_compute; reflexivity|].
  apply (appid_bytes_read_as_marker ([x00] ++ blit "shortcuts" ++ [x00])
           0 2574123058 (blit "Minecraft Splitscreen") exe dir icon
           x32 x6e x99).
  - apply closed_on_right_last. reflexivity.
  - lia.
  - vm_compute. reflexivity.
  - reflexivity.
  - vm_compute. reflexivity.
Defined.

(** Three runs of the script for the home directory /home/user5958
    take the indices 0, 3 and 3. *)
Example runs_reuse_an_index :
  let l := {| EXE := slit "/home/user5958/.local/share/PrismLauncher/minecraftSplitscreen.sh";
              STARTDIR := slit "/home/user5958/.local/share/PrismLauncher";
              LAUNCHER_NAME := slit "PrismLauncher" |} in
  let env := {| detect_launcher := Some l;
                config_dir :=
                  Some (slit "/home/user5958/.steam/steam/userdata/12345/config") |} in
  let run d := main env (fst d) in
  let d1 := run ({| shortcuts_file := None; writes := [] |}, Ok (0, 0)) in
  let d2 := run d1 in
  let d3 := run d2 in
  (snd d1, snd d2, snd d3)
  = (Ok (0, 2574123058), Ok (3, 2574123058), Ok (3, 2574123058)).
Proof. vm_compute. reflexivity. Qed.

(** ** detect_launcher *)

Lemma launcher_names_differ : slit "PollyMC" <> slit "PrismLauncher".
Proof. discriminate. Qed.

(** X7.  The launch script that [detect_launcher] returns exists on
    the machine, with one exception: when the PollyMC AppImage is
    found without PollyMC's own script, the function returns the path
    of PrismLauncher's script without looking whether it exists.  So
    the returned script is missing exactly when PollyMC is found and
    both scripts are missing. *)
Theorem detect_launcher_script_missing_iff (m : Probe.Machine) :
  (exists l, Probe.detect_launcher m = Some l
             /\ Probe.path_exists m (EXE l) = false)
  <-> pollymc_found m = true
      /\ Probe.path_exists m (pollymc_script m) = false
      /\ Probe.path_exists m (prism_script m) = false.
Proof.
  unfold Probe.detect_launcher.
  fold (pollymc_found m) (prism_found m) (pollymc_script m) (prism_script m)
       (current_dir_script m).
  destruct (pollymc_found m).
  - destruct (Probe.path_exists m (pollymc_script m)) eqn:E1.
    + split.
      * intros (l & [= <-] & H). simpl in H. congruence.
      * intros (_ & H & _). discriminate.
    + split.
      * intros (l & [= <-] & H). simpl in H. auto.
      * intros (_ & _ & H). eexists. split; [reflexivity|exact H].
  - split; [|intros (H & _); discriminate].
    intros (l & H & Hl). exfalso.
    destruct (prism_found m); [|discriminate].
    destruct (Probe.path_exists m (prism_script m)) eqn:E2.
    + injection H as <-. simpl in Hl. congruence.
    + destruct (Probe.path_exists m (current_dir_script m)) eqn:E3;
        [|discriminate].
      injection H as <-. simpl in Hl. congruence.
Qed.

(** X8.  PollyMC takes precedence: whenever its AppImage exists and is
    executable [detect_launcher] succeeds with the name PollyMC,
    whatever the state of PrismLauncher; and every launcher returned
    has for working directory the directory of the launcher it is
    named after, also when the script comes from elsewhere. *)
Theorem detect_launcher_precedence (m : Probe.Machine) :
  (pollymc_found m = true ->
   exists l, Probe.detect_launcher m = Some l
             /\ LAUNCHER_NAME l = slit "PollyMC")
  /\ (forall l,
        Probe.detect_launcher m = Some l ->
        (LAUNCHER_NAME l = slit "PollyMC" <-> pollymc_found m = true)
        /\ (LAUNCHER_NAME l = slit "PrismLauncher"
            <-> pollymc_found m = false /\ prism_found m = true)
        /\ STARTDIR l
           = Probe.HOME m ++ slit "/.local/share/" ++ LAUNCHER_NAME l).
Proof.
  unfold Probe.detect_launcher.
  fold (pollymc_found m) (prism_found m) (pollymc_script m) (prism_script m)
       (current_dir_script m).
  destruct (pollymc_found m).
  - split.
    + intros _.
      destruct (Probe.path_exists m (pollymc_script m));
        eexists; split; reflexivity.
    + intros l H.
      assert (LAUNCHER_NAME l = slit "PollyMC"
              /\ STARTDIR l = Probe.HOME m ++ slit "/.local/share/PollyMC")
        as [Hn Hs].
      { destruct (Probe.path_exists m (pollymc_script m));
          injection H as <-; split; reflexivity. }
      rewrite Hn, Hs. repeat split; auto; try discriminate.
      intros [? _]. discriminate.
  - split; [discriminate|].
    intros l H.
    destruct (prism_found m); [|discriminate].
    assert (LAUNCHER_NAME l = slit "PrismLauncher"
            /\ STARTDIR l
               = Probe.HOME m ++ slit "/.local/share/PrismLauncher")
      as [Hn Hs].
    { destruct (Probe.path_exists m (prism_script m));
        [injection H as <-; split; reflexivity|].
      destruct (Probe.path_exists m (current_dir_script m));
        [injection H as <-; split; reflexivity|discriminate]. }
    rewrite Hn, Hs. repeat split; auto; discriminate.
Qed.

Lemma detect_launcher_precedence_witness :
  exists l, Probe.detect_launcher sample_machine = Some l
            /\ LAUNCHER_NAME l = slit "PollyMC".
Proof.
  apply (proj1 (detect_launcher_precedence sample_machine)).
  reflexivity.
Defined.

(** X9.  [detect_launcher] gives up (and the script exits with status
    1 before touching any file) exactly when the PollyMC AppImage is
    not found and either the PrismLauncher AppImage is not found, or
    it is found but neither PrismLauncher's script nor a script next
    to the script file exists. *)
Theorem detect_launcher_fails_iff (m : Probe.Machine) :
  Probe.detect_launcher m = None
  <-> pollymc_found m = false
      /\ (prism_found m = false
          \/ (Probe.path_exists m (prism_script m) = false
              /\ Probe.path_exists m (current_dir_script m) = false)).
Proof.
  unfold Probe.detect_launcher.
  fold (pollymc_found m) (prism_found m) (pollymc_script m) (prism_script m)
       (current_dir_script m).
  destruct (pollymc_found m).
  - destruct (Probe.path_exists m (pollymc_script m));
      split; [discriminate|intros [? _]; discriminate
             |discriminate|intros [? _]; discriminate].
  - destruct (prism_found m); [|split; auto].
    destruct (Probe.path_exists m (prism_script m)).
    + split; [discriminate|]. intros [_ [H|[H _]]]; discriminate.
    + destruct (Probe.path_exists m (current_dir_script m)).
      * split; [discriminate|]. intros [_ [H|[_ H]]]; discriminate.
      * split; auto.
Qed.

Lemma detect_launcher_script_missing_iff_witness :
  exists l, Probe.detect_launcher bare_pollymc_machine = Some l
            /\ Probe.path_exists bare_pollymc_machine (EXE l) = false.
Proof.
  apply (proj2 (detect_launcher_script_missing_iff bare_pollymc_machine)).
  repeat split; reflexivity.
Defined.

Lemma detect_launcher_fails_iff_witness :
  Probe.detect_launcher
    {| Probe.HOME := slit "/home/deck";
       Probe.script_dir := slit "/home/deck/install";
       Probe.path_exists := fun p =>
         str_eqb p (slit "/home/deck/.local/share/PrismLauncher/PrismLauncher.AppImage");
       Probe.access_X_OK := fun _ => true;
       Probe.userdata := slit "/home/deck/.steam/steam/userdata";
       Probe.listdir := [] |} = None.
Proof.
  apply (proj2 (detect_launcher_fails_iff _)).
  split; [reflexivity|right; split; reflexivity].
Defined.

(** ** Paths and the account directory *)

Lemma str_eqb_iff (a b : str) : str_eqb a b = true <-> a = b.
Proof.
  unfold str_eqb. destruct (list_eq_dec N.eq_dec a b); split; congruence.
Qed.

Lemma str_startswith_slash (s : str) :
  str_startswith s (slit "/") = true <-> exists s', s = 47%N :: s'.
Proof.
  unfold str_startswith. rewrite str_eqb_iff.
  destruct s as [|c s]; simpl.
  - split; [discriminate|intros [s' H]; discriminate].
  - split.
    + intros [= ->]. now exists s.
    + intros [s' [= -> ->]]. reflexivity.
Qed.

Lemma str_endswith_slash (s : str) :
  str_endswith s (slit "/") = true <-> exists s', s = s' ++ [47%N].
Proof.
  unfold str_endswith. rewrite andb_true_iff, str_eqb_iff. split.
  - intros [_ E]. exists (firstn (length s - length (slit "/")) s).
    pose proof (firstn_skipn (length s - length (slit "/")) s) as F.
    rewrite E in F. now symmetry.
  - intros [s' ->]. rewrite length_app. split.
    + apply Nat.leb_le. simpl. lia.
    + replace (length s' + length [47%N] - length (slit "/"))%nat
        with (length s') by (simpl; lia).
      rewrite skipn_app, skipn_all, Nat.sub_diag. reflexivity.
Qed.

Lemma join2_open (path b : str) :
  open_path path ->
  (forall b', b <> 47%N :: b') ->
  join2 path b = path ++ slit "/" ++ b.
Proof.
  intros [Hne Hs] Hb. unfold join2.
  destruct (str_startswith b (slit "/")) eqn:E1.
  { apply str_startswith_slash in E1 as [b' ->]. now destruct (Hb b'). }
  destruct path as [|c path]; [contradiction|]. cbn [orb].
  destruct (str_endswith (c :: path) (slit "/")) eqn:E2; [|reflexivity].
  apply str_endswith_slash in E2 as [p' E]. now destruct (Hs p').
Qed.

Lemma open_path_app (a b : str) (c : codepoint) :
  c <> 47%N -> open_path (a ++ b ++ [c]).
Proof.
  intros Hc. split.
  - intros E. apply app_eq_nil in E as [_ E].
    apply app_eq_nil in E as [_ E]. discriminate.
  - intros p' E. rewrite app_assoc in E.
    apply app_inj_tail in E as [_ E]. contradiction.
Qed.

Lemma join2_ends (path b : str) (c : codepoint) :
  exists base, join2 path (b ++ [c]) = base ++ b ++ [c].
Proof.
  unfold join2.
  destruct (str_startswith (b ++ [c]) (slit "/")); [now exists []|].
  destruct (_ || _); [now exists path|].
  exists (path ++ slit "/"). now rewrite <- app_assoc.
Qed.

Lemma isdigit_last (unicode_digit : codepoint -> bool) (d : str) :
  Probe.isdigit unicode_digit d = true ->
  exists d' c, d = d' ++ [c] /\ unicode_digit c = true.
Proof.
  unfold Probe.isdigit. destruct d as [|c0 d0]; [discriminate|].
  intros H.
  destruct (list_last_cases (c0 :: d0)) as [E|(d' & c & E)]; [discriminate|].
  exists d', c. split; [assumption|].
  rewrite E, forallb_app in H. apply andb_true_iff in H as [_ H].
  simpl in H. now destruct (unicode_digit c).
Qed.

Lemma account_paths_inv (unicode_digit : codepoint -> bool)
    (m : Probe.Machine) :
  unicode_digit 47%N = false ->
  (Probe.config_dir unicode_digit m = None
   <-> forall d, In d (Probe.listdir m) ->
                 Probe.isdigit unicode_digit d = false)
  /\ (forall cfg,
        Probe.config_dir unicode_digit m = Some cfg ->
        exists before u after base,
          Probe.listdir m = before ++ u :: after
          /\ Probe.isdigit unicode_digit u = true
          /\ (forall d, In d before -> Probe.isdigit unicode_digit d = false)
          /\ cfg = base ++ u ++ slit "/config"
          /\ Probe.shortcuts_file unicode_digit m
             = Some (cfg ++ slit "/shortcuts.vdf")
          /\ Probe.grid_dir unicode_digit m = Some (cfg ++ slit "/grid")).
Proof.
  intros Hslash.
  unfold Probe.shortcuts_file, Probe.grid_dir, Probe.config_dir, Probe.user_id.
  split.
  - destruct (find (Probe.isdigit unicode_digit) (Probe.listdir m))
      as [u|] eqn:Ef.
    + apply find_some in Ef as [Hin Hd].
      destruct u as [|c u]; [discriminate|].
      split; [discriminate|]. intros H. rewrite (H _ Hin) in Hd. discriminate.
    + split; [|reflexivity]. intros _ d Hin.
      exact (find_none _ _ Ef d Hin).
  - intros cfg.
    destruct (find (Probe.isdigit unicode_digit) (Probe.listdir m))
      as [u|] eqn:Ef; [|discriminate].
    assert (Hfirst : exists before after,
               Probe.listdir m = before ++ u :: after
               /\ forall d, In d before ->
                            Probe.isdigit unicode_digit d = false).
    { clear -Ef. induction (Probe.listdir m) as [|x xs IH]; [discriminate|].
      simpl in Ef. destruct (Probe.isdigit unicode_digit x) eqn:Ex.
      - injection Ef as ->. exists [], xs. split; [reflexivity|]. intros d [].
      - destruct (IH Ef) as (before & after & -> & Hb).
        exists (x :: before), after. split; [reflexivity|].
        intros d [<-|Hin]; [assumption|now apply Hb]. }
    destruct Hfirst as (before & after & Hl & Hb).
    apply find_some in Ef as [_ Hd].
    destruct (isdigit_last _ _ Hd) as (u' & c & Eu & Hc).
    assert (Hc47 : c <> 47%N) by (intros ->; congruence).
    destruct u as [|c0 u0]; [discriminate|].
    intros [= <-].
    unfold path_join. cbn [fold_left].
    destruct (join2_ends (Probe.userdata m) u' c) as [base Eb].
    rewrite Eu, Eb.
    assert (Ho : open_path (base ++ u' ++ [c])) by now apply open_path_app.
    assert (Hcfg : join2 (base ++ u' ++ [c]) (slit "config")
                   = (base ++ u' ++ [c]) ++ slit "/config").
    { rewrite join2_open; [reflexivity|assumption|discriminate]. }
    rewrite Hcfg.
    assert (Ho2 : open_path ((base ++ u' ++ [c]) ++ slit "/config")).
    { change (slit "/config") with (slit "/confi" ++ [103%N]).
      apply open_path_app. discriminate. }
    exists before, (u' ++ [c]), after, base.
    repeat split; try assumption.
    + now rewrite <- Eu.
    + now rewrite <- Eu.
    + now rewrite <- !app_assoc.
    + simpl option_map. cbn [fold_left].
      rewrite join2_open; [reflexivity|assumption|discriminate].
    + rewrite join2_open; [reflexivity|assumption|discriminate].
Qed.

(** X10.  The account used is the first entry of the directory
    listing whose name is all digits; the script stops before reading
    any file exactly when the listing has no such entry.  The paths
    derived from it are [<config_dir>/shortcuts.vdf] and
    [<config_dir>/grid], and [config_dir] ends with
    [<user_id>/config]. *)
Theorem account_paths (unicode_digit : codepoint -> bool)
    (m : Probe.Machine) :
  unicode_digit 47%N = false ->
  (Probe.config_dir unicode_digit m = None
   <-> forall d, In d (Probe.listdir m) ->
                 Probe.isdigit unicode_digit d = false)
  /\ (forall cfg,
        Probe.config_dir unicode_digit m = Some cfg ->
        exists before u after base,
          Probe.listdir m = before ++ u :: after
          /\ Probe.isdigit unicode_digit u = true
          /\ (forall d, In d before -> Probe.isdigit unicode_digit d = false)
          /\ cfg = base ++ u ++ slit "/config"
          /\ Probe.shortcuts_file unicode_digit m
             = Some (cfg ++ slit "/shortcuts.vdf")
          /\ Probe.grid_dir unicode_digit m = Some (cfg ++ slit "/grid")).
Proof. exact (account_paths_inv unicode_digit m). Qed.

Lemma account_paths_witness :
  exists before u after base,
    Probe.listdir sample_machine = before ++ u :: after
    /\ Probe.isdigit ascii_digit u = true
    /\ (forall d, In d before -> Probe.isdigit ascii_digit d = false)
    /\ slit "/home/deck/.steam/steam/userdata/0/config"
       = base ++ u ++ slit "/config"
    /\ Probe.shortcuts_file ascii_digit sample_machine
       = Some (slit "/home/deck/.steam/steam/userdata/0/config"
               ++ slit "/shortcuts.vdf")
    /\ Probe.grid_dir ascii_digit sample_machine
       = Some (slit "/home/deck/.steam/steam/userdata/0/config"
               ++ slit "/grid").
Proof.
  apply (proj2 (account_paths ascii_digit sample_machine eq_refl)).
  reflexivity.
Defined.

(** ** The artwork targets *)

Lemma str_int_head (i : Z) (rest : str) :
  forall b', str_int i ++ rest <> 47%N :: b'.
Proof.
  intros b'. unfold str_int.
  destruct (i <? 0); [discriminate|].
  destruct (str_N_spec (Z.to_N i)) as (Hne & Hd & _).
  destruct (str_N (Z.to_N i)) as [|c s]; [contradiction|].
  inversion Hd as [|? ? Hc _]; subst. unfold digit_cp in Hc.
  intros [= -> _]. lia.
Qed.

Lemma artwork_path_eq (grid : str) (appid : Z) (suffix url : str) :
  artwork_path grid appid (suffix, url)
  = dir_prefix grid ++ str_int appid ++ suffix ++ extension url.
Proof.
  unfold artwork_path, path_join, extension. cbn [fold_left].
  assert (H : forall name,
             (forall b', name <> 47%N :: b') ->
             join2 grid name = dir_prefix grid ++ name).
  { intros name Hn. unfold join2, dir_prefix.
    destruct (str_startswith name (slit "/")) eqn:E.
    - apply str_startswith_slash in E as [b' ->]. now destruct (Hn b').
    - destruct (_ || _); [reflexivity|]. now rewrite <- app_assoc. }
  destruct (negb (str_endswith url (slit ".ico")));
    apply H, str_int_head.
Qed.

Lemma dir_prefix_open (p : str) : open_path p -> dir_prefix p = p ++ slit "/".
Proof.
  intros [Hne Hs]. unfold dir_prefix.
  destruct p as [|c p]; [contradiction|]. cbn [orb].
  destruct (str_endswith (c :: p) (slit "/")) eqn:E; [|reflexivity].
  apply str_endswith_slash in E as [p' E]. now destruct (Hs p').
Qed.

Lemma artwork_targets_facts (grid : str) (appid : Z) :
  NoDup (map (artwork_path grid appid) STEAMGRIDDB_IMAGES)
  /\ forall cfg,
       open_path cfg ->
       grid = cfg ++ slit "/grid" ->
       ~ In (cfg ++ slit "/shortcuts.vdf")
            (map (artwork_path grid appid) STEAMGRIDDB_IMAGES).
Proof.
  unfold STEAMGRIDDB_IMAGES. cbn [map]. rewrite !artwork_path_eq.
  split.
  - repeat constructor; cbn [In]; intros H;
      repeat (destruct H as [H|H]; [|try contradiction]);
      try contradiction;
      try (apply app_inv_head in H; apply app_inv_head in H;
           vm_compute in H; discriminate H).
  - intros cfg Ho ->.
    rewrite dir_prefix_open.
    2:{ change (slit "/grid") with (slit "/gri" ++ [100%N]).
        apply open_path_app. discriminate. }
    cbn [In]. intros H.
    repeat (destruct H as [H|H]; [|try contradiction]);
      try contradiction;
      rewrite <- !app_assoc in H; apply app_inv_head in H;
      discriminate H.
Qed.

(** X11.  The five images are saved to five different paths, for any
    identifier and any grid directory; and, the grid directory being
    [<config_dir>/grid], none of these paths is
    [<config_dir>/shortcuts.vdf]. *)
Theorem artwork_targets_distinct (grid : str) (appid : Z) :
  NoDup (map (artwork_path grid appid) STEAMGRIDDB_IMAGES)
  /\ forall cfg,
       open_path cfg ->
       grid = cfg ++ slit "/grid" ->
       ~ In (cfg ++ slit "/shortcuts.vdf")
            (map (artwork_path grid appid) STEAMGRIDDB_IMAGES).
Proof. exact (artwork_targets_facts grid appid). Qed.

Lemma artwork_targets_distinct_witness :
  ~ In (slit "/u/1/config" ++ slit "/shortcuts.vdf")
       (map (artwork_path (slit "/u/1/config/grid") 3936777386)
          STEAMGRIDDB_IMAGES).
Proof.
  apply (proj2 (artwork_targets_distinct (slit "/u/1/config/grid") 3936777386)
           (slit "/u/1/config")).
  - change (slit "/u/1/config") with ([] ++ slit "/u/1/confi" ++ [103%N]).
    apply open_path_app. discriminate.
  - reflexivity.
Defined.

(** X12.  The icon field that [make_entry] writes into the record is
    the UTF-8 encoding of the very path to which the download loop
    saves the image '_icon'. *)
Theorem icon_field_names_download_target (unicode_digit : codepoint -> bool)
    (m : Probe.Machine) (cfg grid : str) (index appid : Z)
    (appname exe startdir url : str) (entry : bytes) :
  unicode_digit 47%N = false ->
  Probe.config_dir unicode_digit m = Some cfg ->
  Probe.grid_dir unicode_digit m = Some grid ->
  In (slit "_icon", url) STEAMGRIDDB_IMAGES ->
  make_entry cfg index appid appname exe startdir = Ok entry ->
  exists nb eb db ib,
    encode (artwork_path grid appid (slit "_icon", url)) = Some ib
    /\ entry = record_layout index appid nb eb db ib.
Proof.
  intros Hs Hcfg Hgrid Hin Hm.
  destruct (proj2 (account_paths_inv unicode_digit m Hs) cfg Hcfg)
    as (_ & u & _ & base & _ & _ & _ & Ec & _ & Eg).
  rewrite Hgrid in Eg. injection Eg as ->.
  apply make_entry_inv in Hm as (nb & eb & db & cb & Hn & He & Hd & Hc & _ & ->).
  exists nb, eb, db. eexists. split; [|reflexivity].
  assert (Hu : extension url = slit ".ico").
  { cbn [In STEAMGRIDDB_IMAGES] in Hin.
    repeat (destruct Hin as [Hin|Hin]; [try discriminate Hin|]);
      [|contradiction].
    injection Hin as <-. reflexivity. }
  rewrite artwork_path_eq, Hu, dir_prefix_open.
  2:{ rewrite Ec, <- !app_assoc.
      change (slit "/config" ++ slit "/grid")
        with (slit "/config/gri" ++ [100%N]).
      rewrite (app_assoc u). apply open_path_app. discriminate. }
  rewrite !encode_app, Hc, encode_str_int.
  change (encode (slit "/grid")) with (Some (blit "/grid")).
  change (encode (slit "/")) with (Some (blit "/")).
  change (encode (slit "_icon")) with (Some (blit "_icon")).
  change (encode (slit ".ico")) with (Some (blit ".ico")).
  cbv beta iota. f_equal.
  repeat (progress (cbn [app]; rewrite <- ?app_assoc)). reflexivity.
Qed.

Lemma icon_field_names_download_target_witness :
  exists nb eb db ib,
    encode (artwork_path (slit "/home/deck/.steam/steam/userdata/0/config/grid")
              3936777386
              (slit "_icon",
               slit "https://cdn2.steamgriddb.com/icon/add7a048049671970976f3e18f21ade3.ico"))
    = Some ib
    /\ record_layout 0 3936777386 (blit "Minecraft Splitscreen")
         (blit "/x/run.sh") (blit "/x")
         (blit "/home/deck/.steam/steam/userdata/0/config/grid/3936777386_icon.ico")
       = record_layout 0 3936777386 nb eb db ib.
Proof.
  apply (icon_field_names_download_target ascii_digit sample_machine
           (slit "/home/deck/.steam/steam/userdata/0/config")
           (slit "/home/deck/.steam/steam/userdata/0/config/grid")
           0 3936777386 APPNAME (slit "/x/run.sh") (slit "/x")).
  - reflexivity.
  - reflexivity.
  - reflexivity.
  - do 4 right. left. reflexivity.
  - vm_compute. reflexivity.
Defined.

(** ** The download loop *)

Section Downloads.

Variable net : str -> fetched.
Variable grid : str.
Variable appid : Z.

Let step := download_one net grid appid.
Let target := artwork_path grid appid.

Lemma write_path_same (p : str) (c : bytes) (f : Files) :
  write_path p c f p = Some c.
Proof.
  unfold write_path.
  now rewrite (proj2 (str_eqb_iff p p) eq_refl).
Qed.

Lemma write_path_other (p q : str) (c : bytes) (f : Files) :
  p <> q -> write_path p c f q = f q.
Proof.
  intros H. unfold write_path.
  destruct (str_eqb q p) eqn:E; [|reflexivity].
  apply str_eqb_iff in E. congruence.
Qed.

Lemma step_log (f : Files) (log : list report) (image : str * str) :
  exists r, snd (step (f, log) image) = log ++ [r]
            /\ report_suffix r = fst image.
Proof.
  unfold step, download_one.
  destruct (f (artwork_path grid appid image)).
  - eexists. split; reflexivity.
  - destruct (net (snd image)); eexists; split; reflexivity.
Qed.

Lemma step_frame (f : Files) (log : list report) (image : str * str)
    (q : str) :
  target image <> q -> fst (step (f, log) image) q = f q.
Proof.
  intros H. unfold step, download_one. fold (target image).
  destruct (f (target image)); [reflexivity|].
  destruct (net (snd image)); cbn [fst];
    try reflexivity; now apply write_path_other.
Qed.

Lemma step_keeps (f : Files) (log : list report) (image : str * str)
    (q : str) (c : bytes) :
  f q = Some c -> fst (step (f, log) image) q = Some c.
Proof.
  intros H. unfold step, download_one. fold (target image).
  destruct (f (target image)) eqn:E; [exact H|].
  assert (target image <> q) by congruence.
  destruct (net (snd image)); cbn [fst];
    try exact H; now rewrite write_path_other.
Qed.

Lemma loop_log (images : list (str * str)) :
  forall f log,
    map report_suffix (snd (fold_left step images (f, log)))
    = map report_suffix log ++ map fst images.
Proof.
  induction images as [|image images IH]; intros f log; cbn [fold_left].
  - now rewrite app_nil_r.
  - destruct (step_log f log image) as (r & E & Hr).
    destruct (step (f, log) image) as [f1 log1] eqn:Es.
    cbn [snd] in E. subst log1.
    rewrite IH, map_app, <- app_assoc. cbn [map app]. now rewrite Hr.
Qed.

Lemma loop_log_grows (images : list (str * str)) :
  forall f log r,
    In r log -> In r (snd (fold_left step images (f, log))).
Proof.
  induction images as [|image images IH]; intros f log r H;
    cbn [fold_left]; [exact H|].
  destruct (step_log f log image) as (r' & E & _).
  destruct (step (f, log) image) as [f1 log1] eqn:Es.
  cbn [snd] in E. subst log1.
  apply IH, in_or_app. now left.
Qed.

Lemma loop_frame (images : list (str * str)) :
  forall f log q,
    ~ In q (map target images) ->
    fst (fold_left step images (f, log)) q = f q.
Proof.
  induction images as [|image images IH]; intros f log q H;
    cbn [fold_left]; [reflexivity|].
  cbn [map In] in H.
  destruct (step (f, log) image) as [f1 log1] eqn:Es.
  rewrite IH by tauto.
  change f1 with (fst (f1, log1)). rewrite <- Es.
  apply step_frame. tauto.
Qed.

Lemma loop_keeps (images : list (str * str)) :
  forall f log q c,
    f q = Some c -> fst (fold_left step images (f, log)) q = Some c.
Proof.
  induction images as [|image images IH]; intros f log q c H;
    cbn [fold_left]; [exact H|].
  destruct (step (f, log) image) as [f1 log1] eqn:Es.
  apply IH. change f1 with (fst (f1, log1)). rewrite <- Es.
  now apply step_keeps.
Qed.

Lemma step_outcome (f : Files) (log : list report) (image : str * str) :
  outcome net grid appid f (fst (step (f, log) image))
    (snd (step (f, log) image)) image.
Proof.
  unfold outcome, step, download_one. cbv zeta. fold (target image).
  destruct (f (target image)) eqn:E; cbn [fst snd].
  - split; [exact E|]. apply in_or_app. right. now left.
  - destruct (net (snd image)); cbn [fst snd];
      (split; [try exact E; apply write_path_same
              |apply in_or_app; right; now left]).
Qed.

Lemma loop_outcome (images : list (str * str)) :
  forall f log image,
    NoDup (map target images) ->
    In image images ->
    outcome net grid appid f (fst (fold_left step images (f, log)))
      (snd (fold_left step images (f, log))) image.
Proof.
  induction images as [|x images IH]; intros f log image Hnd Hin;
    [contradiction|].
  cbn [map] in Hnd. inversion Hnd as [|? ? Hx Hnd']; subst.
  cbn [fold_left].
  destruct Hin as [->|Hin].
  - pose proof (step_outcome f log image) as Ho.
    destruct (step (f, log) image) as [f1 log1] eqn:Es.
    cbn [fst snd] in Ho. unfold outcome in *. cbv zeta in *.
    change (artwork_path grid appid image) with (target image) in *.
    rewrite (loop_frame images f1 log1 (target image) Hx).
    destruct (f (target image)).
    + destruct Ho. split; [assumption|now apply loop_log_grows].
    + destruct (net (snd image)); destruct Ho;
        (split; [assumption|now apply loop_log_grows]).
  - assert (Hne : target x <> target image).
    { intros E. apply Hx. rewrite E. now apply in_map. }
    pose proof (step_frame f log x (target image) Hne) as Hf.
    destruct (step (f, log) x) as [f1 log1] eqn:Es. cbn [fst] in Hf.
    specialize (IH f1 log1 image Hnd' Hin).
    unfold outcome in *. cbv zeta in *.
    change (artwork_path grid appid image) with (target image) in *.
    now rewrite Hf in IH.
Qed.

End Downloads.

(** X13.  The download loop never overwrites a file that exists when
    it starts, and changes nothing outside the five image paths; in
    particular [shortcuts.vdf] is as the run left it. *)
Theorem artwork_keeps_files (net : str -> fetched) (grid : str) (appid : Z)
    (files : Files) :
  let files' := fst (download_artwork net grid appid files) in
  (forall q content, files q = Some content -> files' q = Some content)
  /\ (forall q,
        ~ In q (map (artwork_path grid appid) STEAMGRIDDB_IMAGES) ->
        files' q = files q)
  /\ (forall cfg,
        open_path cfg -> grid = cfg ++ slit "/grid" ->
        files' (cfg ++ slit "/shortcuts.vdf")
        = files (cfg ++ slit "/shortcuts.vdf")).
Proof.
  unfold download_artwork. cbv zeta. split; [|split].
  - intros q content. apply loop_keeps.
  - intros q. apply loop_frame.
  - intros cfg Ho Hg. apply loop_frame.
    exact (proj2 (artwork_targets_facts grid appid) cfg Ho Hg).
Qed.

Lemma artwork_keeps_files_witness :
  fst (download_artwork (fun _ => Body [x01]) (slit "/u/1/config/grid")
         3936777386
         (write_path (slit "/u/1/config/grid/3936777386p.png") [x02] no_files))
      (slit "/u/1/config/grid/3936777386p.png")
  = Some [x02].
Proof.
  apply (proj1 (artwork_keeps_files (fun _ => Body [x01])
                  (slit "/u/1/config/grid") 3936777386
                  (write_path (slit "/u/1/config/grid/3936777386p.png")
                     [x02] no_files))).
  reflexivity.
Defined.

(** X14.  The loop reports on each of the five images exactly once, in
    the order of the dictionary, whatever fails: a failed download
    never stops the others. *)
Theorem artwork_reports_every_image (net : str -> fetched) (grid : str)
    (appid : Z) (files : Files) :
  map report_suffix (snd (download_artwork net grid appid files))
  = [slit "p"; slit ""; slit "_hero"; slit "_logo"; slit "_icon"].
Proof.
  unfold download_artwork. rewrite loop_log. reflexivity.
Qed.

(** X15.  For each image: if its file exists it is kept and reported
    as skipped; otherwise, if [urlopen] fails no file is created, if
    reading the body fails an empty file is left behind, and if the
    body arrives it is saved; the last but one case is reported as
    failed like the one before it. *)
Theorem artwork_outcome (net : str -> fetched) (grid : str) (appid : Z)
    (files : Files) (image : str * str) :
  In image STEAMGRIDDB_IMAGES ->
  outcome net grid appid files
    (fst (download_artwork net grid appid files))
    (snd (download_artwork net grid appid files)) image.
Proof.
  intros Hin. unfold download_artwork.
  apply loop_outcome; [|exact Hin].
  exact (proj1 (artwork_targets_facts grid appid)).
Qed.

Lemma artwork_outcome_witness :
  fst (download_artwork (fun _ => Truncated) (slit "/g") 7 no_files)
      (artwork_path (slit "/g") 7 (slit "_hero",
         slit "https://cdn2.steamgriddb.com/hero/ecd812da02543c0269cfc2c56ab3c3c0.png"))
  = Some []
  /\ In (Failed (slit "_hero"))
        (snd (download_artwork (fun _ => Truncated) (slit "/g") 7 no_files)).
Proof.
  apply (artwork_outcome (fun _ => Truncated) (slit "/g") 7 no_files
           (slit "_hero",
            slit "https://cdn2.steamgriddb.com/hero/ecd812da02543c0269cfc2c56ab3c3c0.png")).
  do 2 right. left. reflexivity.
Defined.

(** X16.  An image whose body could not be read is never fetched
    again: the first run leaves an empty file at its path and reports
    a failure, and every later run, whatever the network does, finds
    that file, reports the image as skipped and keeps the empty
    file. *)
Theorem truncated_download_not_retried (net1 net2 : str -> fetched)
    (grid : str) (appid : Z) (files : Files) (image : str * str) :
  In image STEAMGRIDDB_IMAGES ->
  files (artwork_path grid appid image) = None ->
  net1 (snd image) = Truncated ->
  let run1 := download_artwork net1 grid appid files in
  let run2 := download_artwork net2 grid appid (fst run1) in
  In (Failed (fst image)) (snd run1)
  /\ fst run1 (artwork_path grid appid image) = Some []
  /\ In (Skipped (fst image)) (snd run2)
  /\ fst run2 (artwork_path grid appid image) = Some [].
Proof.
  intros Hin Hf Hn run1 run2.
  pose proof (proj1 (artwork_targets_facts grid appid)) as Hnd.
  pose proof (loop_outcome net1 grid appid STEAMGRIDDB_IMAGES files []
                image Hnd Hin) as H1.
  fold (download_artwork net1 grid appid files) in H1. fold run1 in H1.
  unfold outcome in H1. rewrite Hf, Hn in H1. destruct H1 as [H1 H1'].
  pose proof (loop_outcome net2 grid appid STEAMGRIDDB_IMAGES (fst run1) []
                image Hnd Hin) as H2.
  fold (download_artwork net2 grid appid (fst run1)) in H2. fold run2 in H2.
  unfold outcome in H2. rewrite H1 in H2. destruct H2 as [H2 H2'].
  auto.
Qed.

Lemma truncated_download_not_retried_witness :
  let image := (slit "_icon",
                slit "https://cdn2.steamgriddb.com/icon/add7a048049671970976f3e18f21ade3.ico") in
  let run1 := download_artwork (fun _ => Truncated) (slit "/g") 7 no_files in
  let run2 := download_artwork (fun _ => Body [x01]) (slit "/g") 7 (fst run1) in
  In (Failed (fst image)) (snd run1)
  /\ fst run1 (artwork_path (slit "/g") 7 image) = Some []
  /\ In (Skipped (fst image)) (snd run2)
  /\ fst run2 (artwork_path (slit "/g") 7 image) = Some [].
Proof.
  apply (truncated_download_not_retried (fun _ => Truncated)
           (fun _ => Body [x01]) (slit "/g") 7 no_files
           (slit "_icon",
            slit "https://cdn2.steamgriddb.com/icon/add7a048049671970976f3e18f21ade3.ico")).
  - do 4 right. left. reflexivity.
  - reflexivity.
  - reflexivity.
Defined.

(** ** Null bytes in encoded text *)

Lemma byte_of_N_high_bit (n : N) :
  N.testbit n 7 = true -> byte_of_N n <> x00.
Proof.
  intros H E. apply (f_equal Byte.to_N) in E.
  rewrite to_N_byte_of_N in E. change (Byte.to_N x00) with 0%N in E.
  change 256%N with (2 ^ 8)%N in E.
  assert (N.testbit (n mod 2 ^ 8) 7 = true) as C
    by (rewrite N.mod_pow2_bits_low; [assumption|reflexivity]).
  rewrite E in C. discriminate.
Qed.

Lemma lor_high_bit (hi x : N) :
  N.testbit hi 7 = true -> N.testbit (N.lor hi x) 7 = true.
Proof. intros H. now rewrite N.lor_spec, H. Qed.

#[local] Opaque N.lor N.shiftr N.land.

Lemma encode_cp_null (c : codepoint) (bs : bytes) :
  encode_cp c = Some bs -> (In x00 bs <-> c = 0%N).
Proof.
  unfold encode_cp.
  destruct (c <? 0x80)%N eqn:E1.
  { intros [= <-]. apply N.ltb_lt in E1. cbn [In]. split.
    - intros [H|[]]. apply (f_equal Byte.to_N) in H.
      rewrite to_N_byte_of_N, N.mod_small in H by lia.
      exact H.
    - intros ->. now left. }
  apply N.ltb_ge in E1.
  assert (Hc : c <> 0%N) by lia.
  assert (Hb : forall hi x, N.testbit hi 7 = true ->
                            byte_of_N (N.lor hi x) <> x00).
  { intros hi x H. apply byte_of_N_high_bit. now apply lor_high_bit. }
  destruct (c <? 0x800)%N.
  { intros [= <-]. cbn [In]. split; [|contradiction].
    intros [H|[H|[]]]; exfalso; revert H; now apply Hb. }
  destruct (c <? 0x10000)%N.
  { destruct (is_surrogate c); [discriminate|].
    intros [= <-]. cbn [In]. split; [|contradiction].
    intros [H|[H|[H|[]]]]; exfalso; revert H; now apply Hb. }
  destruct (c <=? 0x10FFFF)%N; [|discriminate].
  intros [= <-]. cbn [In]. split; [|contradiction].
  intros [H|[H|[H|[H|[]]]]]; exfalso; revert H; now apply Hb.
Qed.

#[local] Transparent N.lor N.shiftr N.land.

Lemma encode_null_iff (s : str) (b : bytes) :
  encode s = Some b -> (In x00 b <-> In 0%N s).
Proof.
  revert b. induction s as [|c s IH]; intros b; simpl.
  - intros [= <-]. reflexivity.
  - destruct (encode_cp c) as [bs|] eqn:Ec; [|discriminate].
    destruct (encode s) as [b'|]; [|discriminate].
    intros [= <-]. rewrite in_app_iff, (encode_cp_null _ _ Ec), (IH b' eq_refl).
    split; intros [H|H]; auto.
Qed.

Lemma decimal_text_no_null (i : Z) : ~ In x00 (decimal_text i).
Proof.
  intros H. apply (encode_null_iff _ _ (encode_str_int i)) in H.
  assert (Hn : forall n, ~ In 0%N (str_N n)).
  { intros n Hin. destruct (str_N_spec n) as (_ & Hd & _).
    rewrite Forall_forall in Hd. specialize (Hd _ Hin).
    unfold digit_cp in Hd. lia. }
  unfold str_int in H. destruct (i <? 0).
  - destruct H as [H|H]; [discriminate|]. exact (Hn _ H).
  - exact (Hn _ H).
Qed.

(** X17.  In the record that [make_entry] builds, the value of a text
    field holds a null byte exactly when the text it comes from holds
    the character U+0000 (for the icon field: when [config_dir]
    does): only then is a field cut short by its own content. *)
Theorem record_values_null_bytes (cfg : str) (index appid : Z)
    (appname exe startdir : str) (entry : bytes) :
  make_entry cfg index appid appname exe startdir = Ok entry ->
  exists nb eb db ib,
    entry = record_layout index appid nb eb db ib
    /\ (In x00 nb <-> In 0%N appname)
    /\ (In x00 eb <-> In 0%N exe)
    /\ (In x00 db <-> In 0%N startdir)
    /\ (In x00 ib <-> In 0%N cfg).
Proof.
  intros H.
  apply make_entry_inv in H as (nb & eb & db & cb & Hn & He & Hd & Hc & _ & ->).
  exists nb, eb, db. eexists. split; [reflexivity|].
  repeat split; try (now apply encode_null_iff).
  - rewrite !in_app_iff. intros [H|[H|[H|H]]].
    + now apply (encode_null_iff _ _ Hc).
    + exfalso. revert H. vm_compute. intuition discriminate.
    + exfalso. exact (decimal_text_no_null _ H).
    + exfalso. revert H. vm_compute. intuition discriminate.
  - intros H. apply in_or_app. left. now apply (encode_null_iff _ _ Hc).
Qed.

Lemma record_values_null_bytes_witness :
  exists nb eb db ib,
    sample_record 0 = record_layout 0 3936777386 nb eb db ib
    /\ (In x00 nb <-> In 0%N APPNAME)
    /\ (In x00 eb <-> In 0%N (slit "/x/run.sh"))
    /\ (In x00 db <-> In 0%N (slit "/x"))
    /\ (In x00 ib <-> In 0%N (slit "/cfg")).
Proof.
  apply (record_values_null_bytes (slit "/cfg") 0 3936777386 APPNAME
           (slit "/x/run.sh") (slit "/x")).
  vm_compute. reflexivity.
Defined.

(** ** The identifier and the checksum *)

Lemma lxor_range32 (a b : Z) :
  0 <= a < 2 ^ 32 -> 0 <= b < 2 ^ 32 -> 0 <= Z.lxor a b < 2 ^ 32.
Proof.
  intros Ha Hb.
  assert (Hnn : 0 <= Z.lxor a b) by (apply Z.lxor_nonneg; lia).
  split; [assumption|].
  destruct (Z.eq_dec (Z.lxor a b) 0) as [->|Hne]; [lia|].
  apply Z.log2_lt_pow2; [lia|].
  eapply Z.le_lt_trans; [apply Z.log2_lxor; lia|].
  apply Z.max_lub_lt.
  - destruct (Z.eq_dec a 0) as [->|]; [reflexivity|].
    apply Z.log2_lt_pow2; lia.
  - destruct (Z.eq_dec b 0) as [->|]; [reflexivity|].
    apply Z.log2_lt_pow2; lia.
Qed.

Lemma crc_shift_range (c : Z) :
  0 <= c < 2 ^ 32 -> 0 <= crc_shift c < 2 ^ 32.
Proof.
  intros H. unfold crc_shift.
  assert (Hs : 0 <= Z.shiftr c 1 < 2 ^ 31).
  { rewrite Z.shiftr_div_pow2 by lia. change (2 ^ 1) with 2.
    change (2 ^ 32) with (2 * 2 ^ 31) in H.
    generalize dependent (2 ^ 31). intros; dlia. }
  destruct (Z.testbit c 0).
  - apply lxor_range32; [|unfold crc_poly]; lia.
  - lia.
Qed.

Lemma crc_byte_range (c : Z) (b : byte) :
  0 <= c < 2 ^ 32 -> 0 <= crc_byte c b < 2 ^ 32.
Proof.
  intros H. unfold crc_byte. cbv zeta.
  do 8 apply crc_shift_range.
  apply lxor_range32; [assumption|].
  pose proof (Z_of_byte_range b). lia.
Qed.

Lemma crc32_range (data : bytes) : 0 <= crc32 data < 2 ^ 32.
Proof.
  unfold crc32. apply lxor_range32; [|lia].
  assert (H : forall c, 0 <= c < 2 ^ 32 ->
                        0 <= fold_left crc_byte data c < 2 ^ 32).
  { induction data as [|b data IH]; intros c Hc; simpl; [assumption|].
    apply IH, crc_byte_range, Hc. }
  apply H. lia.
Qed.

(** X18.  The checksum is already a 32-bit value, so the mask of line
    263 changes nothing, and the identifier is 0x80000000 plus the low
    31 bits of the checksum: two payloads get the same identifier
    exactly when their checksums agree on the low 31 bits. *)
Theorem appid_low_bits (payload : bytes) :
  0 <= crc32 payload < 2 ^ 32
  /\ Z.land (crc32 payload) 0xFFFFFFFF = crc32 payload
  /\ appid_of_bytes payload = 0x80000000 + crc32 payload mod 0x80000000.
Proof.
  pose proof (crc32_range payload) as R.
  assert (Hm : Z.land (crc32 payload) 0xFFFFFFFF = crc32 payload).
  { change 0xFFFFFFFF with (Z.ones 32).
    rewrite Z.land_ones by lia. apply Z.mod_small. exact R. }
  split; [exact R|]. split; [exact Hm|].
  unfold appid_of_bytes. rewrite Hm.
  set (c := crc32 payload) in *.
  change 0x80000000 with (2 ^ 31).
  assert (Hlow : 0 <= c mod 2 ^ 31 < 2 ^ 31) by (apply Z.mod_pos_bound; lia).
  assert (Hd : Z.land (2 ^ 31) (c mod 2 ^ 31) = 0).
  { apply Z.bits_inj'. intros i Hi.
    rewrite Z.land_spec, Z.bits_0, Z.pow2_bits_eqb by lia.
    destruct (Z.eqb_spec 31 i) as [<-|Hne]; [|reflexivity].
    rewrite Z.mod_pow2_bits_high by lia. reflexivity. }
  rewrite (Z.add_nocarry_lxor _ _ Hd), (Z.lxor_lor _ _ Hd).
  apply Z.bits_inj'. intros i Hi.
  rewrite !Z.lor_spec, Z.pow2_bits_eqb by lia.
  destruct (Z.eqb_spec 31 i) as [<-|Hne]; [reflexivity|]. cbn [orb].
  destruct (Z_lt_le_dec i 31) as [Hlt|Hge].
  - now rewrite Z.mod_pow2_bits_low by lia.
  - rewrite Z.mod_pow2_bits_high by lia.
    destruct (Z.eq_dec c 0) as [->|Hc0]; [apply Z.bits_0|].
    apply Z.bits_above_log2; [lia|].
    assert (Z.log2 c < 32) by (apply Z.log2_lt_pow2; lia). lia.
Qed.

(** ** Round trips *)




